(** * kid: K-sortable identifiers

    A shallow embedding of [kid.go] (package [kid], github.com/mwyvr/kid):
    the base32 codec over the 32-symbol alphabet, the decoding table built
    by [init], text unmarshalling, the ordering primitive and the
    timestamp/sequence generator [getTS].

    Go's [byte] is modelled as a [Z] in [0, 256) with the wrap-around of
    [<<] written out; [int64] is a [Z] wrapped to [-2^63, 2^63).  Arrays
    and slices are lists, read by position with [!!!] and written with
    stdpp's [<[i:=v]>]; a Go [string] is the list of its bytes. *)

From Stdlib Require Import ZArith Lia String Ascii.
From stdpp Require Import base numbers list sorting.

Local Open Scope Z_scope.

(** ** Bytes *)

Definition is_byte (b : Z) : Prop := 0 <= b < 256.

(** Conversion to [uint8]: the value modulo 2^8. *)
Definition u8 (x : Z) : Z := x mod 256.

(** [a << n] on a [byte]: the shifted value is truncated to eight bits. *)
Definition shl (a n : Z) : Z := u8 (Z.shiftl a n).

(** [a >> n] on a [byte] (unsigned, so a logical shift). *)
Definition shr (a n : Z) : Z := Z.shiftr a n.

Definition bor (a b : Z) : Z := Z.lor a b.
Definition band (a b : Z) : Z := Z.land a b.

(** A Go string or [[]byte] literal: the code points of its characters. *)
Definition bytes_of_string (s : string) : list Z :=
  map (fun c => Z.of_N (N_of_ascii c)) (list_ascii_of_string s).

(** ** Constants and package variables *)

Definition rawLen : nat := 10.
Definition encodedLen : nat := 16.
Definition encoding : list Z :=
  bytes_of_string "0123456789bcdefghjklmnpqrstvwxyz".
Definition maxByte : Z := 0xFF.

(** [type ID [rawLen]byte] *)
Definition ID : Type := list Z.

Definition valid_ID (id : ID) : Prop :=
  length id = rawLen /\ Forall is_byte id.

(** [var nilID ID]: the zero value of the array type. *)
Definition nilID : ID := replicate rawLen 0.

Inductive error : Type :=
| ErrInvalidID.

(** [func init()]: both loops over the package variable [dec], which
    starts as the zero value of [[256]byte]. *)
Definition init (dec0 : list Z) : list Z :=
  let dec1 :=
    foldl (fun d i => <[i := maxByte]> d) dec0 (seq 0 (length dec0)) in
  foldl (fun d i => <[Z.to_nat (encoding !!! i) := u8 (Z.of_nat i)]> d)
        dec1 (seq 0 (length encoding)).

Definition dec : list Z := Eval vm_compute in init (replicate 256 0).

(** [dec[c]] for a byte [c]. *)
Definition dec_at (c : Z) : Z := dec !!! Z.to_nat c.

(** [encoding[v]] for a byte [v]. *)
Definition enc_at (v : Z) : Z := encoding !!! Z.to_nat v.

(** ** The codec *)

(** [func encode(dst, id []byte)]: sixteen writes into [dst], from the
    last position to the first.  In Go [&] binds as tightly as the
    shifts and tighter than [|]. *)
Definition encode (dst id : list Z) : list Z :=
  let b i := id !!! i in
  let dst := <[15%nat := enc_at (band (b 9%nat) 0x1F)]> dst in
  let dst := <[14%nat := enc_at (bor (shr (b 9%nat) 5) (band (shl (b 8%nat) 3) 0x1F))]> dst in
  let dst := <[13%nat := enc_at (band (shr (b 8%nat) 2) 0x1F)]> dst in
  let dst := <[12%nat := enc_at (bor (shr (b 8%nat) 7) (band (shl (b 7%nat) 1) 0x1F))]> dst in
  let dst := <[11%nat := enc_at (bor (band (shr (b 7%nat) 4) 0x1F) (band (shl (b 6%nat) 4) 0x1F))]> dst in
  let dst := <[10%nat := enc_at (band (shr (b 6%nat) 1) 0x1F)]> dst in
  let dst := <[9%nat := enc_at (bor (band (shr (b 6%nat) 6) 0x1F) (band (shl (b 5%nat) 2) 0x1F))]> dst in
  let dst := <[8%nat := enc_at (shr (b 5%nat) 3)]> dst in
  let dst := <[7%nat := enc_at (band (b 4%nat) 0x1F)]> dst in
  let dst := <[6%nat := enc_at (bor (shr (b 4%nat) 5) (band (shl (b 3%nat) 3) 0x1F))]> dst in
  let dst := <[5%nat := enc_at (band (shr (b 3%nat) 2) 0x1F)]> dst in
  let dst := <[4%nat := enc_at (bor (shr (b 3%nat) 7) (band (shl (b 2%nat) 1) 0x1F))]> dst in
  let dst := <[3%nat := enc_at (bor (band (shr (b 2%nat) 4) 0x1F) (band (shl (b 1%nat) 4) 0x1F))]> dst in
  let dst := <[2%nat := enc_at (band (shr (b 1%nat) 1) 0x1F)]> dst in
  let dst := <[1%nat := enc_at (bor (band (shr (b 1%nat) 6) 0x1F) (band (shl (b 0%nat) 2) 0x1F))]> dst in
  <[0%nat := enc_at (shr (b 0%nat) 3)]> dst.

(** [func (id ID) String() string] *)
Definition String (id : ID) : list Z :=
  let text := replicate encodedLen 0 in
  encode text id.

(** [func (id ID) MarshalText() ([]byte, error)] *)
Definition MarshalText (id : ID) : list Z * option error :=
  let text := replicate encodedLen 0 in
  (encode text id, None).

(** [func decode(id *ID, src []byte) bool]: the array behind the pointer
    is threaded through; the write to [id[9]] happens before the check
    and is visible to the caller when the check fails. *)
Definition decode (id : ID) (src : list Z) : ID * bool :=
  let d i := dec_at (src !!! i) in
  let id := <[9%nat := bor (shl (d 14%nat) 5) (d 15%nat)]> id in
  if negb (enc_at (band (id !!! 9%nat) 0x1F) =? src !!! 15%nat) then (id, false)
  else
  let id := <[8%nat := bor (bor (shl (d 12%nat) 7) (shl (d 13%nat) 2)) (shr (d 14%nat) 3)]> id in
  let id := <[7%nat := bor (shl (d 11%nat) 4) (shr (d 12%nat) 1)]> id in
  let id := <[6%nat := bor (bor (shl (d 9%nat) 6) (shl (d 10%nat) 1)) (shr (d 11%nat) 4)]> id in
  let id := <[5%nat := bor (shl (d 8%nat) 3) (shr (d 9%nat) 2)]> id in
  let id := <[4%nat := bor (shl (d 6%nat) 5) (d 7%nat)]> id in
  let id := <[3%nat := bor (bor (shl (d 4%nat) 7) (shl (d 5%nat) 2)) (shr (d 6%nat) 3)]> id in
  let id := <[2%nat := bor (shl (d 3%nat) 4) (shr (d 4%nat) 1)]> id in
  let id := <[1%nat := bor (bor (shl (d 1%nat) 6) (shl (d 2%nat) 1)) (shr (d 3%nat) 4)]> id in
  let id := <[0%nat := bor (shl (d 0%nat) 3) (shr (d 1%nat) 2)]> id in
  (id, true).

(** The loop [for _, c := range text { if dec[c] == maxByte { return
    ErrInvalidID } }]: [true] when the loop returns early. *)
Fixpoint has_invalid_char (text : list Z) : bool :=
  match text with
  | [] => false
  | c :: rest => if dec_at c =? maxByte then true else has_invalid_char rest
  end.

(** [func (id *ID) UnmarshalText(text []byte) error]: returns the array
    behind the receiver together with the error. *)
Definition UnmarshalText (id : ID) (text : list Z) : ID * option error :=
  if negb (length text =? encodedLen)%nat then (id, Some ErrInvalidID)
  else if has_invalid_char text then (id, Some ErrInvalidID)
  else
    let '(id, ok) := decode id text in
    if negb ok then (nilID, Some ErrInvalidID)
    else (id, None).

(** [func FromString(str string) (ID, error)] *)
Definition FromString (str : list Z) : ID * option error :=
  let id := replicate rawLen 0 in
  UnmarshalText id str.

(** [func (id ID) IsNil() bool]: array equality with [nilID]. *)
Definition IsNil (id : ID) : bool := bool_decide (id = nilID).

(** ** Ordering *)

(** [bytes.Compare]: lexicographic comparison of two byte slices, with
    result -1, 0 or +1; a proper prefix is the smaller one.  Go compares
    strings the same way. *)
Fixpoint bytes_Compare (a b : list Z) : Z :=
  match a, b with
  | [], [] => 0
  | [], _ :: _ => -1
  | _ :: _, [] => 1
  | x :: a', y :: b' =>
      match x ?= y with
      | Lt => -1
      | Gt => 1
      | Eq => bytes_Compare a' b'
      end
  end.

(** [func (id ID) Compare(other ID) int] *)
Definition Compare (id other : ID) : Z :=
  bytes_Compare (take 8 id) (take 8 other).

(** [type sorter []ID] and its three methods. *)
Definition sorter : Type := list ID.

Definition Len (s : sorter) : nat := length s.

Definition Less (s : sorter) (i j : nat) : bool :=
  Compare (s !!! i) (s !!! j) <? 0.

Definition Swap (s : sorter) (i j : nat) : sorter :=
  let si := s !!! i in
  let sj := s !!! j in
  <[j := si]> (<[i := sj]> s).

(** ** The timestamp/sequence generator *)

Definition is_int64 (x : Z) : Prop := - 2 ^ 63 <= x < 2 ^ 63.

(** Two's-complement wrap-around of [int64] arithmetic. *)
Definition wrap64 (x : Z) : Z := (x + 2 ^ 63) mod 2 ^ 64 - 2 ^ 63.

Definition nanoPerMilli : Z := 1000000.

(** [func getTS() (milli, seq int64)], run under [timeMu]: [nano] is what
    [timeNow().UnixNano()] returns, [lastTime] the package variable on
    entry; the result carries the value of [lastTime] on exit.  Go's [/]
    truncates towards zero and [>>] on [int64] is arithmetic. *)
Definition getTS (nano lastTime : Z) : (Z * Z) * Z :=
  let milli := nano ÷ nanoPerMilli in
  let seq := Z.shiftr (wrap64 (nano - wrap64 (milli * nanoPerMilli))) 8 in
  let now := wrap64 (wrap64 (Z.shiftl milli 12) + seq) in
  if now <=? lastTime then
    let now := wrap64 (lastTime + 1) in
    let milli := Z.shiftr now 12 in
    let seq := Z.land now 0xfff in
    ((milli, seq), now)
  else
    ((milli, seq), now).

(** A process: [lastTime] starts at its zero value and every call reads
    the clock once.  [getTS_calls lastTime nanos] lists, call by call,
    the returned pair and the value stored in [lastTime]. *)
Fixpoint getTS_calls (lastTime : Z) (nanos : list Z) : list ((Z * Z) * Z) :=
  match nanos with
  | [] => []
  | nano :: rest =>
      let r := getTS nano lastTime in
      r :: getTS_calls r.2 rest
  end.

(** The combined value [milli*4096 + seq] of a returned pair. *)
Definition tick (r : Z * Z) : Z := r.1 * 4096 + r.2.

(** ** Construction *)

(** [func New() (id ID)]: [nano] and [lastTime] are what [getTS] uses,
    [r8] and [r9] the two bytes [rand.Read] puts into [id[8:]]; the
    result carries the value of [lastTime] on exit.  [byte(x)] keeps the
    low eight bits. *)
Definition New (nano lastTime r8 r9 : Z) : ID * Z :=
  let id := replicate rawLen 0 in
  let r := getTS nano lastTime in
  let t := r.1.1 in
  let s := r.1.2 in
  let id := <[0%nat := u8 (Z.shiftr t 40)]> id in
  let id := <[1%nat := u8 (Z.shiftr t 32)]> id in
  let id := <[2%nat := u8 (Z.shiftr t 24)]> id in
  let id := <[3%nat := u8 (Z.shiftr t 16)]> id in
  let id := <[4%nat := u8 (Z.shiftr t 8)]> id in
  let id := <[5%nat := u8 t]> id in
  let id := <[6%nat := u8 (Z.shiftr s 8)]> id in
  let id := <[7%nat := u8 s]> id in
  let id := <[9%nat := r9]> (<[8%nat := r8]> id) in
  (id, r.2).

(** Successive calls of [New]: each input is the clock reading and the
    two random bytes of one call. *)
Fixpoint New_calls (lastTime : Z) (inputs : list (Z * Z * Z)) : list ID :=
  match inputs with
  | [] => []
  | (nano, r8, r9) :: rest =>
      let r := New nano lastTime r8 r9 in
      r.1 :: New_calls r.2 rest
  end.

(** [func (id ID) IsZero() bool] *)
Definition IsZero (id : ID) : bool := IsNil id.

(** [func (id ID) Encode(dst []byte) []byte] *)
Definition Encode (id : ID) (dst : list Z) : list Z := encode dst id.

(** The builtin [copy(dst, src)]: as many elements as the shorter of the
    two holds. *)
Definition copy (dst src : list Z) : list Z :=
  take (length dst) src ++ drop (length src) dst.

(** [func FromBytes(b []byte) (ID, error)] *)
Definition FromBytes (b : list Z) : ID * option error :=
  let id := replicate rawLen 0 in
  if negb (length b =? rawLen)%nat then (nilID, Some ErrInvalidID)
  else (copy id b, None).

(** [func (id ID) Bytes() []byte] *)
Definition Bytes (id : ID) : list Z := id.

(** ** Accessors *)

Definition u32 (x : Z) : Z := x mod 2 ^ 32.
Definition u64 (x : Z) : Z := x mod 2 ^ 64.

(** Conversion to [int32]. *)
Definition wrap32 (x : Z) : Z := (x + 2 ^ 31) mod 2 ^ 32 - 2 ^ 31.

(** [func (id ID) Timestamp() int64] *)
Definition Timestamp (id : ID) : Z :=
  let b := take 6 id in
  wrap64
    (Z.lor (Z.lor (Z.lor (Z.lor (Z.lor
       (u64 (Z.shiftl (b !!! 0%nat) 40))
       (u64 (Z.shiftl (b !!! 1%nat) 32)))
       (u64 (Z.shiftl (b !!! 2%nat) 24)))
       (u64 (Z.shiftl (b !!! 3%nat) 16)))
       (u64 (Z.shiftl (b !!! 4%nat) 8)))
       (b !!! 5%nat)).

(** [func (id ID) Sequence() int32] *)
Definition Sequence (id : ID) : Z :=
  let b := take 2 (drop 6 id) in
  wrap32 (Z.lor (u32 (Z.shiftl (b !!! 0%nat) 8)) (b !!! 1%nat)).

(** [func (id ID) Random() int32] *)
Definition Random (id : ID) : Z :=
  let b := drop 8 id in
  wrap32 (Z.lor (u32 (Z.shiftl (b !!! 0%nat) 8)) (b !!! 1%nat)).

(** ** SQL and JSON *)

(** A value of interface type [any], as far as [Scan] tells values
    apart: a string, a byte slice, [nil], or a value of another type
    with the name [%T] prints for it. *)
Inductive any : Type :=
| any_string (val : list Z)
| any_bytes (val : list Z)
| any_nil
| any_other (T : list Z).

(** What [Scan] returns as its error: a [kid] error value or the result
    of [fmt.Errorf] with its message. *)
Inductive Scan_error : Type :=
| Err (e : error)
| Errorf (msg : list Z).

(** [func (id ID) Value() (driver.Value, error)] *)
Definition Value (id : ID) : any * option error :=
  if IsNil id then (any_nil, None)
  else
    let r := MarshalText id in
    (any_string r.1, r.2).

(** [func (id *ID) Scan(value any) error] *)
Definition Scan (id : ID) (value : any) : ID * option Scan_error :=
  match value with
  | any_string val => let r := UnmarshalText id val in (r.1, Err <$> r.2)
  | any_bytes val => let r := UnmarshalText id val in (r.1, Err <$> r.2)
  | any_nil => (nilID, None)
  | any_other T =>
      (id, Some (Errorf (bytes_of_string "kid: scanning unsupported type: " ++ T)))
  end.

(** The code point of the double quote. *)
Definition quote : Z := 34.

(** [func (id ID) MarshalJSON() ([]byte, error)]: [encode] writes
    through the slice [text[1:encodedLen+1]] into [text]. *)
Definition MarshalJSON (id : ID) : list Z * option error :=
  if bool_decide (id = nilID) then (bytes_of_string "null", None)
  else
    let text := replicate (encodedLen + 2) 0 in
    let sub := encode (take encodedLen (drop 1 text)) id in
    let text := take 1 text ++ sub ++ drop (encodedLen + 1) text in
    let text := <[(encodedLen + 1)%nat := quote]> (<[0%nat := quote]> text) in
    (text, None).

(** [func (id *ID) UnmarshalJSON(b []byte) error] *)
Definition UnmarshalJSON (id : ID) (b : list Z) : ID * option error :=
  if bool_decide (b = bytes_of_string "null") then (nilID, None)
  else if (length b <? 2)%nat then (id, Some ErrInvalidID)
  else UnmarshalText id (take (length b - 1 - 1) (drop 1 b)).

(** A run of [Swap] calls, as [sort.Sort] can only make them. *)
Definition Swaps (s : sorter) (ijs : list (nat * nat)) : sorter :=
  foldl (fun s ij => Swap s ij.1 ij.2) s ijs.

(** ** Views used by the proofs *)

(** The alphabet indices [encode] computes from five consecutive bytes. *)
Definition q0 (a0 : Z) : Z := shr a0 3.
Definition q1 (a0 a1 : Z) : Z := bor (band (shr a1 6) 0x1F) (band (shl a0 2) 0x1F).
Definition q2 (a1 : Z) : Z := band (shr a1 1) 0x1F.
Definition q3 (a1 a2 : Z) : Z := bor (band (shr a2 4) 0x1F) (band (shl a1 4) 0x1F).
Definition q4 (a2 a3 : Z) : Z := bor (shr a3 7) (band (shl a2 1) 0x1F).
Definition q5 (a3 : Z) : Z := band (shr a3 2) 0x1F.
Definition q6 (a3 a4 : Z) : Z := bor (shr a4 5) (band (shl a3 3) 0x1F).
Definition q7 (a4 : Z) : Z := band a4 0x1F.

Definition enc5 (a0 a1 a2 a3 a4 : Z) : list Z :=
  [q0 a0; q1 a0 a1; q2 a1; q3 a1 a2; q4 a2 a3; q5 a3; q6 a3 a4; q7 a4].

Definition quintets (id : ID) : list Z :=
  enc5 (id !!! 0%nat) (id !!! 1%nat) (id !!! 2%nat) (id !!! 3%nat) (id !!! 4%nat)
  ++ enc5 (id !!! 5%nat) (id !!! 6%nat) (id !!! 7%nat) (id !!! 8%nat) (id !!! 9%nat).

(** The bytes [decode] computes from eight consecutive table entries. *)
Definition o0 (v0 v1 : Z) : Z := bor (shl v0 3) (shr v1 2).
Definition o1 (v1 v2 v3 : Z) : Z := bor (bor (shl v1 6) (shl v2 1)) (shr v3 4).
Definition o2 (v3 v4 : Z) : Z := bor (shl v3 4) (shr v4 1).
Definition o3 (v4 v5 v6 : Z) : Z := bor (bor (shl v4 7) (shl v5 2)) (shr v6 3).
Definition o4 (v6 v7 : Z) : Z := bor (shl v6 5) v7.

Definition dec8 (v0 v1 v2 v3 v4 v5 v6 v7 : Z) : list Z :=
  [o0 v0 v1; o1 v1 v2 v3; o2 v3 v4; o3 v4 v5 v6; o4 v6 v7].

Definition octets (vs : list Z) : list Z :=
  dec8 (vs !!! 0%nat) (vs !!! 1%nat) (vs !!! 2%nat) (vs !!! 3%nat)
       (vs !!! 4%nat) (vs !!! 5%nat) (vs !!! 6%nat) (vs !!! 7%nat)
  ++ dec8 (vs !!! 8%nat) (vs !!! 9%nat) (vs !!! 10%nat) (vs !!! 11%nat)
          (vs !!! 12%nat) (vs !!! 13%nat) (vs !!! 14%nat) (vs !!! 15%nat).

Definition is_quintet (v : Z) : Prop := 0 <= v < 32.

(** The number a digit list denotes in base [B], most significant digit
    first. *)
Definition value (B : Z) (l : list Z) : Z := foldl (fun acc d => acc * B + d) 0 l.

(** The sign of an integer comparison, as -1, 0 or +1. *)
Definition cmpZ (x y : Z) : Z :=
  match x ?= y with
  | Lt => -1
  | Eq => 0
  | Gt => 1
  end.

(** ** Sample values *)

(** An identifier and its text from the table in [kid_test.go]. *)
Definition sample_id : ID :=
  [0x1; 0x95; 0x76; 0xe1; 0x3d; 0xae; 0x0; 0x98; 0x7a; 0xe5].
Definition sample_text : list Z := bytes_of_string "06bqer9xnr09hyq5".

(** A second identifier with the same timestamp and sequence as
    [sample_id] and other random bytes. *)
Definition sample_id' : ID :=
  [0x1; 0x95; 0x76; 0xe1; 0x3d; 0xae; 0x0; 0x98; 0x00; 0x01].

(** The rejected texts of the table. *)
Definition upper_text : list Z := bytes_of_string "06BQER9XNR09HYQ5".
Definition vowel_text : list Z := bytes_of_string "o6bqer9xnr09hyq5".
Definition short_text : list Z := bytes_of_string "06bqer9".

(** ** Test vectors of [kid_test.go] *)

Example String_test0 :
  String [0x0; 0xdc; 0x6a; 0xcf; 0xab; 0xff; 0x0; 0x0; 0x0; 0x0]
  = bytes_of_string "03f6nlxczw000000".
Proof. vm_compute. reflexivity. Qed.

Example Encode_test :
  String [0x63; 0xac; 0x76; 0xd3; 0xff; 0xff; 0xfc; 0x30; 0x37; 0xc2]
  = bytes_of_string "dfp7emzzzzy30ey2".
Proof. vm_compute. reflexivity. Qed.

Example FromString_test :
  FromString (bytes_of_string "06bprdfln4x281hd")
  = ([0x1; 0x95; 0x6c; 0x31; 0xd3; 0xa9; 0x3a; 0x24; 0x6; 0xc], None).
Proof. vm_compute. reflexivity. Qed.

Example FromString_uppercase :
  FromString upper_text = (nilID, Some ErrInvalidID).
Proof. vm_compute. reflexivity. Qed.

Example FromString_vowel :
  FromString vowel_text = (nilID, Some ErrInvalidID).
Proof. vm_compute. reflexivity. Qed.

Example FromString_short :
  FromString short_text = (nilID, Some ErrInvalidID).
Proof. vm_compute. reflexivity. Qed.

Example String_max :
  String (replicate rawLen 0xff) = bytes_of_string "zzzzzzzzzzzzzzzz".
Proof. vm_compute. reflexivity. Qed.

(** ** Exhaustive checks over bytes and quintets *)

Lemma forall_range (n : Z) (P : Z -> bool) :
  forallb P (seqZ 0 n) = true -> forall x, 0 <= x < n -> P x = true.
Proof.
  intros HP x Hx. rewrite forallb_forall in HP. apply HP.
  apply list_elem_of_In, elem_of_seqZ. lia.
Qed.

Lemma forall_range2 (n m : Z) (P : Z -> Z -> bool) :
  forallb (fun x => forallb (P x) (seqZ 0 m)) (seqZ 0 n) = true ->
  forall x y, 0 <= x < n -> 0 <= y < m -> P x y = true.
Proof.
  intros HP x y Hx Hy.
  apply (forall_range m (P x)); [|assumption].
  apply (forall_range n (fun x => forallb (P x) (seqZ 0 m))); assumption.
Qed.

Lemma forall_range3 (n m k : Z) (P : Z -> Z -> Z -> bool) :
  forallb (fun x => forallb (fun y => forallb (P x y) (seqZ 0 k)) (seqZ 0 m))
          (seqZ 0 n) = true ->
  forall x y z, 0 <= x < n -> 0 <= y < m -> 0 <= z < k -> P x y z = true.
Proof.
  intros HP x y z Hx Hy Hz.
  apply (forall_range k (P x y)); [|assumption].
  apply (forall_range2 n m (fun x y => forallb (P x y) (seqZ 0 k))); assumption.
Qed.

(** ** The alphabet and the decoding table *)

Lemma dec_enc (v : Z) : is_quintet v -> dec_at (enc_at v) = v.
Proof.
  intros Hv. apply Z.eqb_eq.
  apply (forall_range 32 (fun v => dec_at (enc_at v) =? v)); [|exact Hv].
  vm_compute. reflexivity.
Qed.

Lemma enc_byte (v : Z) : is_quintet v -> is_byte (enc_at v).
Proof.
  intros Hv. unfold is_byte.
  assert (H : ((0 <=? enc_at v) && (enc_at v <? 256))%bool = true).
  { apply (forall_range 32 (fun v => (0 <=? enc_at v) && (enc_at v <? 256))%bool);
      [vm_compute; reflexivity | exact Hv]. }
  apply andb_true_iff in H. lia.
Qed.

(** The symbols are in strictly increasing code-point order. *)
Lemma enc_compare (v w : Z) :
  is_quintet v -> is_quintet w -> (enc_at v ?= enc_at w) = (v ?= w).
Proof.
  intros Hv Hw.
  pose (P := fun v w : Z =>
    match enc_at v ?= enc_at w, v ?= w with
    | Lt, Lt | Eq, Eq | Gt, Gt => true
    | _, _ => false
    end).
  assert (H : P v w = true).
  { apply (forall_range2 32 32 P); [vm_compute; reflexivity | exact Hv | exact Hw]. }
  unfold P in H. destruct (enc_at v ?= enc_at w), (v ?= w); congruence.
Qed.

(** What a table entry other than [maxByte] is. *)
Lemma dec_valid (c : Z) :
  is_byte c -> dec_at c <> maxByte -> is_quintet (dec_at c) /\ enc_at (dec_at c) = c.
Proof.
  intros Hc Hne.
  pose (P := fun c : Z =>
    ((dec_at c =? maxByte) ||
     ((0 <=? dec_at c) && (dec_at c <? 32) && (enc_at (dec_at c) =? c)))%bool).
  assert (H : P c = true).
  { apply (forall_range 256 P); [vm_compute; reflexivity | exact Hc]. }
  unfold P in H. apply orb_true_iff in H. destruct H as [H|H]; [lia|].
  rewrite !andb_true_iff in H. unfold is_quintet. lia.
Qed.

(** A byte is marked [maxByte] exactly when it is no symbol of the
    alphabet. *)
Lemma dec_maxByte_iff (c : Z) :
  is_byte c -> (dec_at c = maxByte <-> c ∉ encoding).
Proof.
  intros Hc.
  pose (P := fun c : Z =>
    Bool.eqb (dec_at c =? maxByte) (negb (bool_decide (c ∈ encoding)))).
  assert (H : P c = true).
  { apply (forall_range 256 P); [vm_compute; reflexivity | exact Hc]. }
  unfold P in H. apply Bool.eqb_prop in H.
  rewrite <- Z.eqb_eq, H, negb_true_iff, bool_decide_eq_false. reflexivity.
Qed.


(** ** The bit expressions as arithmetic *)

(** Settle an equation between integer expressions over one, two or
    three bounded variables by checking every case. *)
Ltac check_range1 n a :=
  apply Z.eqb_eq;
  lazymatch goal with
  | |- ?t = true =>
      let P := eval pattern a in t in
      lazymatch P with
      | ?f _ => apply (forall_range n f); [vm_compute; reflexivity | assumption]
      end
  end.

Ltac check_range2 n a b :=
  apply Z.eqb_eq;
  lazymatch goal with
  | |- ?t = true =>
      let P := eval pattern a, b in t in
      lazymatch P with
      | ?f _ _ =>
          apply (forall_range2 n n f); [vm_compute; reflexivity | assumption ..]
      end
  end.

Ltac check_range3 n a b c :=
  apply Z.eqb_eq;
  lazymatch goal with
  | |- ?t = true =>
      let P := eval pattern a, b, c in t in
      lazymatch P with
      | ?f _ _ _ =>
          apply (forall_range3 n n n f); [vm_compute; reflexivity | assumption ..]
      end
  end.

Ltac div_mod_lia := Z.div_mod_to_equations; lia.

Section Quintets.
Variables a b : Z.
Hypothesis Ha : is_byte a.
Hypothesis Hb : is_byte b.

Lemma q0_eq : q0 a = a / 8.
Proof using Ha. check_range1 256 a. Qed.

Lemma q1_eq : q1 a b = a mod 8 * 4 + b / 64.
Proof using Ha Hb. check_range2 256 a b. Qed.

Lemma q2_eq : q2 a = a / 2 mod 32.
Proof using Ha. check_range1 256 a. Qed.

Lemma q3_eq : q3 a b = a mod 2 * 16 + b / 16.
Proof using Ha Hb. check_range2 256 a b. Qed.

Lemma q4_eq : q4 a b = a mod 16 * 2 + b / 128.
Proof using Ha Hb. check_range2 256 a b. Qed.

Lemma q5_eq : q5 a = a / 4 mod 32.
Proof using Ha. check_range1 256 a. Qed.

Lemma q6_eq : q6 a b = a mod 4 * 8 + b / 32.
Proof using Ha Hb. check_range2 256 a b. Qed.

Lemma q7_eq : q7 a = a mod 32.
Proof using Ha. check_range1 256 a. Qed.
End Quintets.

Section Octets.
Variables u v w : Z.
Hypothesis Hu : is_quintet u.
Hypothesis Hv : is_quintet v.
Hypothesis Hw : is_quintet w.

Lemma o0_eq : o0 u v = u * 8 + v / 4.
Proof using Hu Hv. check_range2 32 u v. Qed.

Lemma o1_eq : o1 u v w = u mod 4 * 64 + v * 2 + w / 16.
Proof using Hu Hv Hw. check_range3 32 u v w. Qed.

Lemma o2_eq : o2 u v = u mod 16 * 16 + v / 2.
Proof using Hu Hv. check_range2 32 u v. Qed.

Lemma o3_eq : o3 u v w = u mod 2 * 128 + v * 4 + w / 8.
Proof using Hu Hv Hw. check_range3 32 u v w. Qed.

Lemma o4_eq : o4 u v = u mod 8 * 32 + v.
Proof using Hu Hv. check_range2 32 u v. Qed.

(** The low five bits of the last byte are the last table entry. *)
Lemma o4_low : band (o4 u v) 0x1F = v.
Proof using Hu Hv. check_range2 32 u v. Qed.
End Octets.

(** ** Five bytes against eight quintets *)

Ltac list_of_length l H :=
  repeat (destruct l as [|? l]; [discriminate H|]);
  destruct l; [clear H|discriminate H].

Ltac split_cons :=
  repeat lazymatch goal with
         | |- _ :: _ = _ :: _ => apply (f_equal2 (@cons Z))
         | |- @nil _ = @nil _ => reflexivity
         end.

Ltac quintet_forms :=
  rewrite ?q0_eq, ?q1_eq, ?q2_eq, ?q3_eq, ?q4_eq, ?q5_eq, ?q6_eq, ?q7_eq
    by assumption.

Ltac octet_forms :=
  rewrite ?o0_eq, ?o1_eq, ?o2_eq, ?o3_eq, ?o4_eq
    by (unfold is_quintet, is_byte in *; div_mod_lia).

Section FiveBytes.
Variables a0 a1 a2 a3 a4 : Z.
Hypothesis H0 : is_byte a0.
Hypothesis H1 : is_byte a1.
Hypothesis H2 : is_byte a2.
Hypothesis H3 : is_byte a3.
Hypothesis H4 : is_byte a4.

Lemma enc5_quintet : Forall is_quintet (enc5 a0 a1 a2 a3 a4).
Proof using H0 H1 H2 H3 H4.
  unfold enc5. quintet_forms.
  repeat constructor; unfold is_byte in *; div_mod_lia.
Qed.

Lemma dec8_enc5 :
  dec8 (q0 a0) (q1 a0 a1) (q2 a1) (q3 a1 a2) (q4 a2 a3) (q5 a3) (q6 a3 a4) (q7 a4)
  = [a0; a1; a2; a3; a4].
Proof using H0 H1 H2 H3 H4.
  unfold dec8. quintet_forms. octet_forms.
  split_cons; unfold is_byte in *; div_mod_lia.
Qed.

Lemma value_enc5 :
  value 32 (enc5 a0 a1 a2 a3 a4) = value 256 [a0; a1; a2; a3; a4].
Proof using H0 H1 H2 H3 H4.
  unfold enc5. quintet_forms. cbv [value foldl].
  unfold is_byte in *; div_mod_lia.
Qed.
End FiveBytes.

Section EightQuintets.
Variables v0 v1 v2 v3 v4 v5 v6 v7 : Z.
Hypothesis H0 : is_quintet v0.
Hypothesis H1 : is_quintet v1.
Hypothesis H2 : is_quintet v2.
Hypothesis H3 : is_quintet v3.
Hypothesis H4 : is_quintet v4.
Hypothesis H5 : is_quintet v5.
Hypothesis H6 : is_quintet v6.
Hypothesis H7 : is_quintet v7.

Lemma dec8_byte : Forall is_byte (dec8 v0 v1 v2 v3 v4 v5 v6 v7).
Proof using H0 H1 H2 H3 H4 H5 H6 H7.
  unfold dec8. octet_forms.
  repeat constructor; unfold is_quintet in *; div_mod_lia.
Qed.

Lemma enc5_dec8 :
  enc5 (o0 v0 v1) (o1 v1 v2 v3) (o2 v3 v4) (o3 v4 v5 v6) (o4 v6 v7)
  = [v0; v1; v2; v3; v4; v5; v6; v7].
Proof using H0 H1 H2 H3 H4 H5 H6 H7.
  pose proof dec8_byte as Hb. unfold dec8 in Hb.
  repeat match goal with
         | H : Forall _ (_ :: _) |- _ => apply Forall_cons in H; destruct H
         end.
  unfold enc5. quintet_forms. octet_forms.
  split_cons; unfold is_quintet in *; div_mod_lia.
Qed.
End EightQuintets.

(** ** Whole identifiers *)

Ltac split_Forall :=
  repeat match goal with
         | H : Forall _ (_ :: _) |- _ => apply Forall_cons in H; destruct H
         | H : Forall _ [] |- _ => clear H
         end.

Lemma quintets_cons (a0 a1 a2 a3 a4 a5 a6 a7 a8 a9 : Z) :
  quintets [a0; a1; a2; a3; a4; a5; a6; a7; a8; a9]
  = enc5 a0 a1 a2 a3 a4 ++ enc5 a5 a6 a7 a8 a9.
Proof. reflexivity. Qed.

Lemma octets_cons (v0 v1 v2 v3 v4 v5 v6 v7 v8 v9 v10 v11 v12 v13 v14 v15 : Z) :
  octets [v0; v1; v2; v3; v4; v5; v6; v7; v8; v9; v10; v11; v12; v13; v14; v15]
  = dec8 v0 v1 v2 v3 v4 v5 v6 v7 ++ dec8 v8 v9 v10 v11 v12 v13 v14 v15.
Proof. reflexivity. Qed.

(** [encode] writes the alphabet symbol of each quintet, whatever [dst]
    held before. *)
Lemma encode_quintets (dst : list Z) (id : ID) :
  length dst = encodedLen -> length id = rawLen ->
  encode dst id = map enc_at (quintets id).
Proof.
  intros Hd Hi. list_of_length dst Hd. list_of_length id Hi. reflexivity.
Qed.

Lemma String_quintets (id : ID) :
  length id = rawLen -> String id = map enc_at (quintets id).
Proof. intros Hi. apply encode_quintets; [reflexivity | exact Hi]. Qed.

Lemma quintets_length (id : ID) : length (quintets id) = encodedLen.
Proof. reflexivity. Qed.

Lemma quintets_quintet (x : ID) : valid_ID x -> Forall is_quintet (quintets x).
Proof.
  intros [Hl Hb]. list_of_length x Hl. split_Forall.
  rewrite quintets_cons. apply Forall_app. split; apply enc5_quintet; assumption.
Qed.

Lemma octets_quintets (x : ID) : valid_ID x -> octets (quintets x) = x.
Proof.
  intros [Hl Hb]. list_of_length x Hl. split_Forall.
  rewrite quintets_cons. unfold enc5. cbn [app].
  rewrite octets_cons, !dec8_enc5 by assumption. reflexivity.
Qed.

Lemma octets_valid (vs : list Z) :
  length vs = encodedLen -> Forall is_quintet vs -> valid_ID (octets vs).
Proof.
  intros Hl Hq. list_of_length vs Hl. split_Forall.
  split; [reflexivity|].
  rewrite octets_cons. apply Forall_app. split; apply dec8_byte; assumption.
Qed.

Lemma quintets_octets (vs : list Z) :
  length vs = encodedLen -> Forall is_quintet vs -> quintets (octets vs) = vs.
Proof.
  intros Hl Hq. list_of_length vs Hl. split_Forall.
  rewrite octets_cons. unfold dec8. cbn [app].
  rewrite quintets_cons, !enc5_dec8 by assumption. reflexivity.
Qed.

(** What [decode] does on a sixteen-byte source. *)
Lemma decode_unfold (id : ID) (src : list Z) :
  length id = rawLen -> length src = encodedLen ->
  decode id src =
    let v14 := dec_at (src !!! 14%nat) in
    let v15 := dec_at (src !!! 15%nat) in
    if negb (enc_at (band (o4 v14 v15) 0x1F) =? src !!! 15%nat)
    then (<[9%nat := o4 v14 v15]> id, false)
    else (octets (map dec_at src), true).
Proof.
  intros Hi Hs. list_of_length id Hi. list_of_length src Hs. reflexivity.
Qed.

(** ** The validation loop *)

Lemma has_invalid_char_false (text : list Z) :
  has_invalid_char text = false <-> Forall (fun c => dec_at c <> maxByte) text.
Proof.
  induction text as [|c text IH]; simpl.
  - split; [constructor | reflexivity].
  - rewrite Forall_cons. destruct (Z.eqb_spec (dec_at c) maxByte) as [E|E].
    + split; [discriminate | intros [Hc _]; contradiction].
    + rewrite IH. tauto.
Qed.

Lemma accepted_quintets (text : list Z) :
  Forall is_byte text -> has_invalid_char text = false ->
  Forall is_quintet (map dec_at text) /\ map enc_at (map dec_at text) = text.
Proof.
  intros Hb Hv. apply has_invalid_char_false in Hv.
  induction text as [|c text IH]; [split; [constructor | reflexivity]|].
  apply Forall_cons in Hb as [Hc Hb]. apply Forall_cons in Hv as [Hvc Hv].
  destruct (dec_valid c Hc Hvc) as [Hq He].
  destruct (IH Hb Hv) as [IH1 IH2].
  split; [constructor; assumption|].
  cbn [map]. rewrite He. f_equal. exact IH2.
Qed.

Lemma encoded_accepted (qs : list Z) :
  Forall is_quintet qs ->
  has_invalid_char (map enc_at qs) = false /\ map dec_at (map enc_at qs) = qs
  /\ Forall is_byte (map enc_at qs).
Proof.
  induction 1 as [|q qs Hq Hqs IH]; [repeat split; constructor|].
  destruct IH as (IH1 & IH2 & IH3). cbn [map has_invalid_char].
  rewrite (dec_enc q Hq), IH2.
  replace (q =? maxByte) with false
    by (symmetry; apply Z.eqb_neq; unfold is_quintet, maxByte in *; lia).
  repeat split; [exact IH1 | constructor; [apply enc_byte; exact Hq | exact IH3]].
Qed.

Lemma has_invalid_char_true (text : list Z) :
  has_invalid_char text = true <-> Exists (fun c => dec_at c = maxByte) text.
Proof.
  induction text as [|c text IH]; simpl.
  - split; [discriminate | intros H; inversion H].
  - rewrite Exists_cons. destruct (Z.eqb_spec (dec_at c) maxByte) as [E|E].
    + split; [left; exact E | reflexivity].
    + rewrite IH. tauto.
Qed.

Lemma encoding_symbol (c : Z) :
  c ∈ encoding -> is_byte c /\ dec_at c <> maxByte.
Proof.
  intros Hc.
  assert (H : forallb (fun c => (0 <=? c) && (c <? 256) && negb (dec_at c =? maxByte))
                      encoding = true) by (vm_compute; reflexivity).
  rewrite forallb_forall in H. apply list_elem_of_In, H in Hc.
  rewrite !andb_true_iff, negb_true_iff, Z.eqb_neq in Hc.
  unfold is_byte. lia.
Qed.

(** ** Decoding accepted text *)

Lemma decode_accepts (id : ID) (src : list Z) :
  length id = rawLen -> length src = encodedLen ->
  Forall is_byte src -> has_invalid_char src = false ->
  decode id src = (octets (map dec_at src), true).
Proof.
  intros Hi Hs Hb Hv. rewrite decode_unfold by assumption. cbv zeta.
  apply has_invalid_char_false in Hv.
  assert (H14 : (14 < length src)%nat) by (rewrite Hs; unfold encodedLen; lia).
  assert (H15 : (15 < length src)%nat) by (rewrite Hs; unfold encodedLen; lia).
  pose proof (Forall_lookup_total_1 _ _ _ Hb H14) as Hb14.
  pose proof (Forall_lookup_total_1 _ _ _ Hb H15) as Hb15.
  pose proof (Forall_lookup_total_1 _ _ _ Hv H14) as Hv14.
  pose proof (Forall_lookup_total_1 _ _ _ Hv H15) as Hv15.
  cbv beta in Hv14, Hv15.
  destruct (dec_valid _ Hb14 Hv14) as [Hq14 _].
  destruct (dec_valid _ Hb15 Hv15) as [Hq15 He15].
  rewrite (o4_low _ _ Hq14 Hq15), He15, Z.eqb_refl. reflexivity.
Qed.

Lemma UnmarshalText_accepts (id : ID) (text : list Z) :
  length id = rawLen -> length text = encodedLen ->
  Forall is_byte text -> has_invalid_char text = false ->
  UnmarshalText id text = (octets (map dec_at text), None).
Proof.
  intros Hi Hl Hb Hv. unfold UnmarshalText.
  rewrite Hl, Nat.eqb_refl, Hv. cbn [negb].
  rewrite decode_accepts by assumption. reflexivity.
Qed.

Lemma UnmarshalText_no_error (id : ID) (text : list Z) :
  (UnmarshalText id text).2 = None ->
  length text = encodedLen /\ has_invalid_char text = false.
Proof.
  unfold UnmarshalText.
  destruct (Nat.eqb_spec (length text) encodedLen) as [E|E]; cbn [negb];
    [|discriminate].
  destruct (has_invalid_char text); [discriminate|].
  intros _. split; [exact E | reflexivity].
Qed.

(** On a failure the array behind the receiver is either left as it was
    or reset to [nilID]: the byte [decode] wrote before its check is
    never left behind. *)
Lemma UnmarshalText_error_receiver (id : ID) (text : list Z) (e : error) :
  (UnmarshalText id text).2 = Some e ->
  (UnmarshalText id text).1 = id \/ (UnmarshalText id text).1 = nilID.
Proof.
  unfold UnmarshalText.
  destruct (negb (length text =? encodedLen)%nat); [left; reflexivity|].
  destruct (has_invalid_char text); [left; reflexivity|].
  destruct (decode id text) as [id' [|]]; cbn [negb]; [discriminate|].
  right. reflexivity.
Qed.

(** ** The codec is a bijection *)

Lemma sample_id_valid : valid_ID sample_id.
Proof. split; [reflexivity | repeat constructor; unfold is_byte; lia]. Qed.

Lemma sample_text_bytes : Forall is_byte sample_text.
Proof. repeat constructor; unfold is_byte; lia. Qed.

(** C1. Round trip: decoding the sixteen-character text that encoding a
    ten-byte value [x] produces returns exactly [x], without error. *)
Theorem FromString_String (x : ID) :
  valid_ID x -> FromString (String x) = (x, None).
Proof.
  intros Hx. pose proof Hx as [Hl _].
  rewrite (String_quintets x Hl).
  destruct (encoded_accepted _ (quintets_quintet x Hx)) as (Hv & Hd & Hb).
  unfold FromString.
  rewrite UnmarshalText_accepts;
    [ | reflexivity | rewrite length_map; apply quintets_length | exact Hb | exact Hv ].
  rewrite Hd, (octets_quintets x Hx). reflexivity.
Qed.

Lemma FromString_String_witness :
  valid_ID sample_id /\ FromString (String sample_id) = (sample_id, None).
Proof.
  split; [exact sample_id_valid | exact (FromString_String sample_id sample_id_valid)].
Defined.

(** C5. Every text [s] that decoding accepts is reproduced exactly by
    encoding the decoded value. *)
Theorem String_FromString (s : list Z) (id : ID) :
  Forall is_byte s -> FromString s = (id, None) -> String id = s.
Proof.
  intros Hb Hd. unfold FromString in Hd.
  destruct (UnmarshalText_no_error (replicate rawLen 0) s) as [Hl Hv];
    [rewrite Hd; reflexivity|].
  rewrite UnmarshalText_accepts in Hd by (assumption || reflexivity).
  injection Hd as <-.
  destruct (accepted_quintets s Hb Hv) as [Hq He].
  assert (Hlq : length (map dec_at s) = encodedLen) by (rewrite length_map; exact Hl).
  rewrite String_quintets by (apply octets_valid; assumption).
  rewrite quintets_octets by assumption. exact He.
Qed.

Lemma String_FromString_witness :
  Forall is_byte sample_text /\ FromString sample_text = (sample_id, None)
  /\ String sample_id = sample_text.
Proof.
  assert (H : FromString sample_text = (sample_id, None)) by (vm_compute; reflexivity).
  split; [exact sample_text_bytes|].
  split; [exact H | exact (String_FromString sample_text sample_id sample_text_bytes H)].
Defined.

(** C10. On sixteen bytes that all belong to the alphabet the check in
    [decode] on the last character passes, so [decode] returns [true]
    and [UnmarshalText] never takes its last error branch. *)
Theorem decode_check_passes (id : ID) (src : list Z) :
  length id = rawLen -> length src = encodedLen ->
  Forall (fun c => c ∈ encoding) src ->
  (decode id src).2 = true /\ (UnmarshalText id src).2 = None.
Proof.
  intros Hi Hs Ha.
  assert (Hb : Forall is_byte src).
  { eapply Forall_impl; [exact Ha|]. intros c Hc. apply (encoding_symbol c Hc). }
  assert (Hv : has_invalid_char src = false).
  { apply has_invalid_char_false. eapply Forall_impl; [exact Ha|].
    intros c Hc. apply (encoding_symbol c Hc). }
  rewrite decode_accepts, UnmarshalText_accepts by assumption.
  split; reflexivity.
Qed.

Lemma decode_check_passes_witness :
  length sample_id' = rawLen /\ length sample_text = encodedLen
  /\ Forall (fun c => c ∈ encoding) sample_text
  /\ (decode sample_id' sample_text).2 = true
  /\ (UnmarshalText sample_id' sample_text).2 = None.
Proof.
  assert (Ha : Forall (fun c => c ∈ encoding) sample_text).
  { apply Forall_forall. intros c Hc. apply list_elem_of_In.
    apply list_elem_of_In in Hc.
    assert (H : forallb (fun c => bool_decide (In c encoding)) sample_text = true)
      by (vm_compute; reflexivity).
    rewrite forallb_forall in H. apply H in Hc.
    apply bool_decide_eq_true in Hc. exact Hc. }
  split; [reflexivity|]. split; [reflexivity|]. split; [exact Ha|].
  exact (decode_check_passes sample_id' sample_text eq_refl eq_refl Ha).
Defined.

(** ** Rejection *)

(** Upper-case letters and the four vowels are no symbols of the
    alphabet. *)
Lemma excluded_letters (c : Z) :
  65 <= c <= 90 \/ c ∈ bytes_of_string "aiou" -> c ∉ encoding.
Proof.
  intros [Hc|Hc].
  - assert (H : forallb (fun c => negb (bool_decide (c ∈ encoding))) (seqZ 65 26) = true)
      by (vm_compute; reflexivity).
    rewrite forallb_forall in H.
    specialize (H c). rewrite negb_true_iff, bool_decide_eq_false in H.
    apply H, list_elem_of_In, elem_of_seqZ. lia.
  - assert (H : forallb (fun c => negb (bool_decide (c ∈ encoding)))
                        (bytes_of_string "aiou") = true)
      by (vm_compute; reflexivity).
    rewrite forallb_forall in H.
    specialize (H c). rewrite negb_true_iff, bool_decide_eq_false in H.
    apply H, list_elem_of_In, Hc.
Qed.

(** C6. [UnmarshalText] returns [ErrInvalidID] exactly when the text is
    not sixteen bytes long, or holds a byte that is no symbol of the
    alphabet (upper-case letters and a, i, o, u among them), or the
    re-encode check on the last character fails; on every other text it
    returns no error.  The check is stated on the text itself: the last
    byte is rebuilt from the table entries of the last two characters,
    and the symbol of its low five bits is compared with the last
    character. *)
Theorem UnmarshalText_error_iff (id : ID) (text : list Z) :
  length id = rawLen -> Forall is_byte text ->
  let id9 := bor (shl (dec_at (text !!! 14%nat)) 5) (dec_at (text !!! 15%nat)) in
  let check_fails := enc_at (band id9 0x1F) <> text !!! 15%nat in
  let rejected :=
    length text <> encodedLen
    \/ (exists c, c ∈ text /\ c ∉ encoding)
    \/ (length text = encodedLen /\ check_fails) in
  ((UnmarshalText id text).2 = Some ErrInvalidID <-> rejected)
  /\ ((UnmarshalText id text).2 = None <-> ~ rejected)
  /\ (forall c, 65 <= c <= 90 \/ c ∈ bytes_of_string "aiou" -> c ∉ encoding).
Proof.
  intros Hi Hb id9 check_fails rejected.
  assert (Hiff : (UnmarshalText id text).2 = Some ErrInvalidID <-> rejected).
  { unfold rejected, UnmarshalText.
    destruct (Nat.eqb_spec (length text) encodedLen) as [El|El]; cbn [negb];
      [|split; [left; exact El | reflexivity]].
    destruct (has_invalid_char text) eqn:Ev.
    - split; [intros _ | reflexivity]. right. left.
      apply has_invalid_char_true, Exists_exists in Ev.
      destruct Ev as (c & Hc & Hm). exists c. split; [exact Hc|].
      apply dec_maxByte_iff; [|exact Hm].
      rewrite Forall_forall in Hb. apply Hb, Hc.
    - pose proof (decode_unfold id text Hi El) as Hd. cbv zeta in Hd.
      rewrite (decode_accepts id text Hi El Hb Ev) in Hd.
      assert (Hpass : enc_at (band id9 0x1F) = text !!! 15%nat).
      { fold (o4 (dec_at (text !!! 14%nat)) (dec_at (text !!! 15%nat))) in id9.
        destruct (Z.eqb_spec (enc_at (band id9 0x1F)) (text !!! 15%nat)) as [E|E];
          [exact E|].
        unfold id9 in E. apply Z.eqb_neq in E. rewrite E in Hd. discriminate Hd. }
      rewrite (decode_accepts id text Hi El Hb Ev). cbn [negb snd].
      apply has_invalid_char_false in Ev. rewrite Forall_forall in Ev, Hb.
      split; [discriminate|].
      intros [H|[(c & Hc & Hn)|[_ H]]];
        [contradiction | | exfalso; exact (H Hpass)].
      exfalso. apply (Ev c Hc). apply dec_maxByte_iff; [apply Hb, Hc | exact Hn]. }
  split; [exact Hiff|]. split; [|exact excluded_letters].
  rewrite <- Hiff.
  destruct (UnmarshalText id text).2 as [[]|]; split; congruence.
Qed.

Lemma sample_text_alphabet : Forall (fun c => c ∈ encoding) sample_text.
Proof.
  apply Forall_forall. intros c Hc.
  assert (H : forallb (fun c => bool_decide (c ∈ encoding)) sample_text = true)
    by (vm_compute; reflexivity).
  rewrite forallb_forall in H. apply list_elem_of_In, H in Hc.
  apply bool_decide_eq_true in Hc. exact Hc.
Qed.

Lemma UnmarshalText_error_iff_witness :
  length sample_id = rawLen /\ Forall is_byte upper_text
  /\ (UnmarshalText sample_id upper_text).2 = Some ErrInvalidID
  /\ (exists c, c ∈ upper_text /\ c ∉ encoding)
  /\ Forall is_byte sample_text
  /\ (UnmarshalText sample_id' sample_text).2 = None.
Proof.
  assert (Hb : Forall is_byte upper_text) by (repeat constructor; unfold is_byte; lia).
  assert (He : (UnmarshalText sample_id upper_text).2 = Some ErrInvalidID)
    by (vm_compute; reflexivity).
  split; [reflexivity|]. split; [exact Hb|]. split; [exact He|].
  split.
  - destruct (UnmarshalText_error_iff sample_id upper_text eq_refl Hb) as (Hiff & _ & _).
    destruct (proj1 Hiff He) as [Hl|[Hc|[_ Hd]]].
    + exfalso. apply Hl. reflexivity.
    + exact Hc.
    + exfalso. apply Hd. vm_compute. reflexivity.
  - split; [exact sample_text_bytes|].
    destruct (UnmarshalText_error_iff sample_id' sample_text eq_refl sample_text_bytes)
      as (_ & Hok & _).
    apply Hok. intros [Hl|[(c & Hc & Hn)|[_ Hd]]].
    + apply Hl. reflexivity.
    + pose proof sample_text_alphabet as Ha. rewrite Forall_forall in Ha.
      exact (Hn (Ha c Hc)).
    + apply Hd. vm_compute. reflexivity.
Defined.

(** C7. Whenever [FromString] fails, by the length check, the alphabet
    check or the check in [decode], the identifier it returns with the
    error is the all-zero [nilID]. *)
Theorem FromString_error_nilID (str : list Z) (e : error) :
  (FromString str).2 = Some e -> (FromString str).1 = nilID.
Proof.
  unfold FromString, UnmarshalText.
  destruct (negb (length str =? encodedLen)%nat); [reflexivity|].
  destruct (has_invalid_char str); [reflexivity|].
  destruct (decode (replicate rawLen 0) str) as [id' [|]]; cbn [negb];
    [discriminate | reflexivity].
Qed.

Lemma FromString_error_nilID_witness :
  (FromString vowel_text).2 = Some ErrInvalidID /\ (FromString vowel_text).1 = nilID.
Proof.
  assert (He : (FromString vowel_text).2 = Some ErrInvalidID) by (vm_compute; reflexivity).
  split; [exact He | exact (FromString_error_nilID vowel_text ErrInvalidID He)].
Defined.

(** ** The sentinel *)

(** C9. The all-zero identifier reports [IsNil] and encodes to sixteen
    zero digits; every other identifier does not report [IsNil]. *)
Theorem nilID_sentinel :
  IsNil nilID = true
  /\ String nilID = bytes_of_string "0000000000000000"
  /\ (forall id : ID, id <> nilID -> IsNil id = false).
Proof.
  split; [reflexivity|]. split; [vm_compute; reflexivity|].
  intros id Hne. unfold IsNil. apply bool_decide_eq_false. exact Hne.
Qed.

Lemma nilID_sentinel_witness :
  sample_id <> nilID /\ IsNil sample_id = false.
Proof.
  assert (Hne : sample_id <> nilID) by discriminate.
  split; [exact Hne|].
  exact (proj2 (proj2 nilID_sentinel) sample_id Hne).
Defined.

(** ** Lexicographic order and positional value *)

Section Positional.
Variable B : Z.
Hypothesis HB : 1 < B.

Let digit (d : Z) : Prop := 0 <= d < B.

Lemma compare_shift (x y d e : Z) :
  digit d -> digit e ->
  (x * B + d ?= y * B + e) = match x ?= y with Eq => d ?= e | c => c end.
Proof using HB.
  unfold digit. intros Hd He.
  destruct (Z.compare_spec x y) as [E|L|G].
  - subst y. destruct (Z.compare_spec d e); [apply Z.compare_eq_iff | apply Z.compare_lt_iff
                                            | apply Z.compare_gt_iff]; lia.
  - apply Z.compare_lt_iff. nia.
  - apply Z.compare_gt_iff. nia.
Qed.

Lemma bytes_Compare_foldl (a b : list Z) :
  length a = length b -> Forall digit a -> Forall digit b ->
  forall x y,
    cmpZ (foldl (fun acc d => acc * B + d) x a) (foldl (fun acc d => acc * B + d) y b)
    = match x ?= y with Lt => -1 | Gt => 1 | Eq => bytes_Compare a b end.
Proof using HB.
  revert b. induction a as [|d a IH]; intros [|e b] Hl Ha Hb x y;
    try discriminate Hl.
  - reflexivity.
  - apply Forall_cons in Ha as [Hd Ha]. apply Forall_cons in Hb as [He Hb].
    injection Hl as Hl. cbn [foldl bytes_Compare].
    rewrite (IH b Hl Ha Hb), (compare_shift x y d e Hd He).
    destruct (x ?= y), (d ?= e); reflexivity.
Qed.

(** Comparing digit lists of one length is comparing the numbers they
    denote. *)
Lemma bytes_Compare_value (a b : list Z) :
  length a = length b -> Forall digit a -> Forall digit b ->
  bytes_Compare a b = cmpZ (value B a) (value B b).
Proof using HB.
  intros Hl Ha Hb. unfold value.
  rewrite (bytes_Compare_foldl a b Hl Ha Hb 0 0). reflexivity.
Qed.
End Positional.

Lemma bytes_Compare_app (p p' s s' : list Z) :
  length p = length p' ->
  bytes_Compare (p ++ s) (p' ++ s')
  = if bytes_Compare p p' =? 0 then bytes_Compare s s' else bytes_Compare p p'.
Proof.
  revert p'. induction p as [|x p IH]; intros [|y p'] Hl; try discriminate Hl.
  - reflexivity.
  - injection Hl as Hl. cbn [app bytes_Compare].
    destruct (x ?= y); [apply IH; exact Hl | reflexivity | reflexivity].
Qed.

(** The alphabet keeps the order of the quintets. *)
Lemma bytes_Compare_enc (qs qs' : list Z) :
  Forall is_quintet qs -> Forall is_quintet qs' ->
  bytes_Compare (map enc_at qs) (map enc_at qs') = bytes_Compare qs qs'.
Proof.
  intros Hq. revert qs'. induction Hq as [|q qs Hq Hqs IH]; intros qs' Hq'.
  - destruct qs'; reflexivity.
  - destruct Hq' as [|q' qs' Hq' Hqs']; [reflexivity|].
    cbn [map bytes_Compare]. rewrite (enc_compare q q' Hq Hq'), (IH qs' Hqs').
    reflexivity.
Qed.

Lemma value_app (B : Z) (l1 l2 : list Z) :
  value B (l1 ++ l2) = foldl (fun acc d => acc * B + d) (value B l1) l2.
Proof. unfold value. apply foldl_app. Qed.

(** Both readings of the eighty bits denote the same number. *)
Lemma value_quintets (x : ID) :
  valid_ID x -> value 32 (quintets x) = value 256 x.
Proof.
  intros [Hl Hb]. list_of_length x Hl. split_Forall.
  rewrite quintets_cons, value_app, value_enc5 by assumption.
  unfold enc5. quintet_forms. cbv [value foldl].
  unfold is_byte in *. div_mod_lia.
Qed.

(** ** Encoding keeps the order *)

Lemma bytes_Compare_String (a b : ID) :
  valid_ID a -> valid_ID b ->
  bytes_Compare (String a) (String b) = bytes_Compare a b.
Proof.
  intros Ha Hb. pose proof Ha as [Hla Hba]. pose proof Hb as [Hlb Hbb].
  rewrite (String_quintets a Hla), (String_quintets b Hlb).
  rewrite bytes_Compare_enc by (apply quintets_quintet; assumption).
  rewrite (bytes_Compare_value 32) by
    (try lia; try apply quintets_quintet; try assumption; reflexivity).
  rewrite (value_quintets a Ha), (value_quintets b Hb).
  symmetry. apply (bytes_Compare_value 256); [lia | congruence | assumption ..].
Qed.

(** C4. For any two ten-byte values the byte-wise comparison of the raw
    values equals the lexicographic comparison of their sixteen-character
    encoded forms. *)
Theorem String_keeps_order (a b : ID) :
  valid_ID a -> valid_ID b ->
  bytes_Compare a b = bytes_Compare (String a) (String b).
Proof. intros Ha Hb. symmetry. apply bytes_Compare_String; assumption. Qed.

Lemma sample_id'_valid : valid_ID sample_id'.
Proof. split; [reflexivity | repeat constructor; unfold is_byte; lia]. Qed.

Lemma String_keeps_order_witness :
  valid_ID sample_id /\ valid_ID sample_id'
  /\ bytes_Compare sample_id sample_id'
     = bytes_Compare (String sample_id) (String sample_id').
Proof.
  split; [exact sample_id_valid|]. split; [exact sample_id'_valid|].
  exact (String_keeps_order sample_id sample_id' sample_id_valid sample_id'_valid).
Defined.

(** [Compare] looks at the first eight bytes only: two identifiers that
    differ in their random bytes alone compare equal, and their encoded
    forms do not. *)
Lemma Compare_String_disagree :
  valid_ID sample_id /\ valid_ID sample_id'
  /\ Z.sgn (Compare sample_id sample_id')
     <> Z.sgn (bytes_Compare (String sample_id) (String sample_id')).
Proof.
  split; [exact sample_id_valid|]. split; [exact sample_id'_valid|].
  vm_compute. discriminate.
Qed.

(** C3, amended. When [Compare a b] is not zero it equals the
    lexicographic comparison of the encoded forms; when it is zero, that
    comparison is decided by the two trailing random bytes. *)
Theorem Compare_String (a b : ID) :
  valid_ID a -> valid_ID b ->
  (Compare a b <> 0 -> bytes_Compare (String a) (String b) = Compare a b)
  /\ (Compare a b = 0 ->
      bytes_Compare (String a) (String b) = bytes_Compare (drop 8 a) (drop 8 b)).
Proof.
  intros Ha Hb. rewrite (bytes_Compare_String a b Ha Hb).
  destruct Ha as [Hla _], Hb as [Hlb _].
  assert (Happ : bytes_Compare a b
                 = if Compare a b =? 0 then bytes_Compare (drop 8 a) (drop 8 b)
                   else Compare a b).
  { rewrite <- (take_drop 8 a) at 1. rewrite <- (take_drop 8 b) at 1.
    apply bytes_Compare_app. rewrite !length_take, Hla, Hlb. reflexivity. }
  rewrite Happ. split; intros H.
  - apply Z.eqb_neq in H. rewrite H. reflexivity.
  - rewrite H. reflexivity.
Qed.

Lemma Compare_String_witness :
  valid_ID sample_id /\ valid_ID nilID /\ Compare sample_id nilID <> 0
  /\ bytes_Compare (String sample_id) (String nilID) = Compare sample_id nilID.
Proof.
  assert (Hn : valid_ID nilID)
    by (split; [reflexivity | repeat constructor; unfold is_byte; lia]).
  assert (Hc : Compare sample_id nilID <> 0) by (vm_compute; discriminate).
  split; [exact sample_id_valid|]. split; [exact Hn|]. split; [exact Hc|].
  exact (proj1 (Compare_String sample_id nilID sample_id_valid Hn) Hc).
Defined.

(** ** The generator *)

Lemma wrap64_small (x : Z) : is_int64 x -> wrap64 x = x.
Proof. unfold is_int64, wrap64. intros Hx. rewrite Z.mod_small; lia. Qed.

(** One call: the returned pair combines to the value stored, which is
    above the old one and, unless the clock set it, just one above. *)
Lemma getTS_step (nano lastTime : Z) :
  is_int64 nano -> is_int64 lastTime -> lastTime < 2 ^ 63 - 1 ->
  let r := getTS nano lastTime in
  tick r.1 = r.2 /\ lastTime < r.2 /\ r.2 <= Z.max (lastTime + 1) (2 ^ 56).
Proof.
  unfold is_int64. intros Hn Hl Hmax. unfold getTS, nanoPerMilli, tick.
  set (milli := nano ÷ 1000000).
  assert (Hrem : nano = 1000000 * milli + Z.rem nano 1000000)
    by (apply Z.quot_rem').
  assert (Hr : - 1000000 < Z.rem nano 1000000 < 1000000).
  { pose proof (Z.rem_bound_abs nano 1000000). lia. }
  assert (Hs : Z.rem nano 1000000 * nano >= 0).
  { pose proof (Z.rem_sign_mul nano 1000000). lia. }
  assert (Hm : - 2 ^ 63 <= milli * 1000000 < 2 ^ 63) by nia.
  rewrite (wrap64_small (milli * 1000000)) by exact Hm.
  replace (nano - milli * 1000000) with (Z.rem nano 1000000) by lia.
  rewrite (wrap64_small (Z.rem nano 1000000)) by (unfold is_int64; lia).
  rewrite Z.shiftr_div_pow2, Z.shiftl_mul_pow2 by lia.
  set (seq := Z.rem nano 1000000 / 2 ^ 8).
  assert (Hseq : - 3907 <= seq <= 3906) by (unfold seq; div_mod_lia).
  assert (Hmilli : - 2 ^ 44 < milli < 2 ^ 44) by lia.
  rewrite (wrap64_small (milli * 2 ^ 12)) by (unfold is_int64; lia).
  rewrite (wrap64_small (milli * 2 ^ 12 + seq)) by (unfold is_int64; lia).
  destruct (Z.leb_spec (milli * 2 ^ 12 + seq) lastTime) as [Hle|Hgt]; cbn [fst snd].
  - rewrite (wrap64_small (lastTime + 1)) by (unfold is_int64; lia).
    change 0xfff with (Z.ones 12).
    rewrite Z.land_ones, Z.shiftr_div_pow2 by lia.
    repeat split; [div_mod_lia | lia | lia].
  - repeat split; lia.
Qed.

Lemma StronglySorted_lt_cons (x y : Z) (l : list Z) :
  x < y -> StronglySorted Z.lt (y :: l) -> StronglySorted Z.lt (x :: y :: l).
Proof.
  intros Hxy Hs. constructor; [exact Hs|].
  apply StronglySorted_inv in Hs as [_ Hall].
  constructor; [exact Hxy|].
  eapply Forall_impl; [exact Hall|]. intros z Hz. cbv beta in *. lia.
Qed.

(** From any stored value, as long as the calls cannot carry [lastTime]
    to the largest [int64]. *)
Lemma getTS_calls_increasing (nanos : list Z) :
  Forall is_int64 nanos ->
  forall lastTime,
    is_int64 lastTime ->
    Z.max lastTime (2 ^ 56) + Z.of_nat (length nanos) < 2 ^ 63 ->
    Forall (fun r => tick r.1 = r.2) (getTS_calls lastTime nanos)
    /\ StronglySorted Z.lt (lastTime :: map snd (getTS_calls lastTime nanos)).
Proof.
  induction 1 as [|nano nanos Hn Hns IH]; intros lastTime Hl Hlen.
  - split; repeat constructor.
  - cbn [getTS_calls length] in *.
    destruct (getTS_step nano lastTime Hn Hl) as (Ht & Hlt & Hle);
      [unfold is_int64 in Hl; lia|].
    set (r := getTS nano lastTime) in *.
    destruct (IH r.2) as [IH1 IH2];
      [unfold is_int64 in *; lia | lia |].
    split; [constructor; assumption|].
    cbn [map]. apply StronglySorted_lt_cons; assumption.
Qed.

(** C2. In a process that starts with [lastTime = 0], whatever the clock
    reads, every call returns a pair whose combined value
    [milli*4096 + seq] is the value it stores in [lastTime], and that
    value is greater than those of all earlier calls (and than the
    initial 0).  The bound on the number of calls keeps [lastTime + 1]
    within [int64]. *)
Theorem getTS_strictly_increasing (nanos : list Z) :
  Forall is_int64 nanos -> Z.of_nat (length nanos) <= 2 ^ 62 ->
  let calls := getTS_calls 0 nanos in
  Forall (fun r => tick r.1 = r.2) calls
  /\ StronglySorted Z.lt (map (fun r => tick r.1) calls)
  /\ StronglySorted Z.lt (0 :: map snd calls).
Proof.
  intros Hn Hlen calls.
  destruct (getTS_calls_increasing nanos Hn 0) as [Ht Hs];
    [unfold is_int64; lia | lia |].
  fold calls in Ht, Hs.
  split; [exact Ht|]. split; [|exact Hs].
  replace (map (fun r => tick r.1) calls) with (map snd calls).
  - apply StronglySorted_inv in Hs as [Hs _]. exact Hs.
  - clear Hs. induction Ht as [|r rs Hr Hrs IH]; [reflexivity|].
    cbn [map]. rewrite Hr, IH. reflexivity.
Qed.

(** A stalled clock, a clock stepping back and a clock before 1970. *)
Lemma getTS_strictly_increasing_witness :
  let nanos := [1741456227757958400; 1741456227757958400;
                1741456227757000000; -1; 1741456227758005000] in
  Forall is_int64 nanos /\ Z.of_nat (length nanos) <= 2 ^ 62
  /\ map fst (getTS_calls 0 nanos)
     = [(1741456227757, 3743); (1741456227757, 3744); (1741456227757, 3745);
        (1741456227757, 3746); (1741456227758, 19)]
  /\ StronglySorted Z.lt (map (fun r => tick r.1) (getTS_calls 0 nanos)).
Proof.
  intros nanos.
  assert (Hn : Forall is_int64 nanos)
    by (repeat constructor; unfold is_int64; lia).
  assert (Hl : Z.of_nat (length nanos) <= 2 ^ 62) by (cbn; lia).
  split; [exact Hn|]. split; [exact Hl|].
  split; [vm_compute; reflexivity|].
  exact (proj1 (proj2 (getTS_strictly_increasing nanos Hn Hl))).
Defined.

(** At the largest [int64] the bump wraps around: the bound on the
    number of calls cannot be dropped. *)
Example getTS_wraps :
  getTS 0 (2 ^ 63 - 1) = ((- 2 ^ 51, 0), - 2 ^ 63).
Proof. vm_compute. reflexivity. Qed.

(** ** The comparator behind [Sort] *)

Lemma bytes_Compare_refl (a : list Z) : bytes_Compare a a = 0.
Proof.
  induction a as [|x a IH]; [reflexivity|].
  cbn [bytes_Compare]. rewrite Z.compare_refl. exact IH.
Qed.

Lemma bytes_Compare_antisym (a b : list Z) :
  bytes_Compare b a = - bytes_Compare a b.
Proof.
  revert b. induction a as [|x a IH]; intros [|y b]; try reflexivity.
  cbn [bytes_Compare]. rewrite (Z.compare_antisym x y).
  destruct (x ?= y); cbn [CompOpp]; [apply IH | reflexivity | reflexivity].
Qed.

Lemma Compare_antisym (a b : ID) : Compare b a = - Compare a b.
Proof. apply bytes_Compare_antisym. Qed.

Lemma Less_irrefl (s : sorter) (i : nat) : Less s i i = false.
Proof. unfold Less, Compare. rewrite bytes_Compare_refl. reflexivity. Qed.

(** Identifiers that compare equal need not be the same value, so the
    order in which a sort leaves them can be seen. *)
Example Compare_zero_distinct :
  Compare sample_id sample_id' = 0 /\ sample_id <> sample_id'.
Proof. split; [vm_compute; reflexivity | discriminate]. Qed.

Example Swap_test :
  Swap [sample_id; nilID; sample_id'] 0 1 = [nilID; sample_id; sample_id'].
Proof. reflexivity. Qed.

Example MarshalJSON_test :
  (MarshalJSON [0x1; 0x95; 0x6c; 0x3c; 0xc6; 0x37; 0x7f; 0x43; 0xc2; 0xcf]).1
  = [quote] ++ bytes_of_string "06bprg666xzm7hpg" ++ [quote].
Proof. vm_compute. reflexivity. Qed.

Example accessors_max :
  let id := replicate rawLen 0xff in
  (Timestamp id, Sequence id, Random id) = (2 ^ 48 - 1, 65535, 65535).
Proof. vm_compute. reflexivity. Qed.

Example accessors_test :
  (Timestamp sample_id, Sequence sample_id, Random sample_id)
  = (1741456227758, 152, 31461).
Proof. vm_compute. reflexivity. Qed.

Example Scan_int :
  Scan nilID (any_other (bytes_of_string "int"))
  = (nilID, Some (Errorf (bytes_of_string "kid: scanning unsupported type: int"))).
Proof. vm_compute. reflexivity. Qed.

Example New_test :
  New 1741456227758038912 0 0x7a 0xe5 = (sample_id, 1741456227758 * 4096 + 152).
Proof. vm_compute. reflexivity. Qed.

(** ** More on the text form *)

Lemma enc_at_elem (q : Z) : is_quintet q -> enc_at q ∈ encoding.
Proof.
  intros Hq.
  pose (P := fun v : Z => bool_decide (enc_at v ∈ encoding)).
  assert (H : P q = true)
    by (apply (forall_range 32 P); [vm_compute; reflexivity | exact Hq]).
  unfold P in H. apply bool_decide_eq_true in H. exact H.
Qed.

Lemma String_length (id : ID) : length id = rawLen -> length (String id) = encodedLen.
Proof. intros Hl. rewrite (String_quintets id Hl), length_map. reflexivity. Qed.

Lemma UnmarshalText_String (r x : ID) :
  length r = rawLen -> valid_ID x -> UnmarshalText r (String x) = (x, None).
Proof.
  intros Hr Hx. pose proof Hx as [Hl _].
  rewrite (String_quintets x Hl).
  destruct (encoded_accepted _ (quintets_quintet x Hx)) as (Hv & Hd & Hb).
  rewrite UnmarshalText_accepts;
    [ | exact Hr | rewrite length_map; apply quintets_length | exact Hb | exact Hv ].
  rewrite Hd, (octets_quintets x Hx). reflexivity.
Qed.

Lemma UnmarshalText_ok_iff (r : ID) (text : list Z) :
  length r = rawLen -> Forall is_byte text ->
  (UnmarshalText r text).2 = None
  <-> length text = encodedLen /\ Forall (fun c => c ∈ encoding) text.
Proof.
  intros Hr Hb. split.
  - intros Hok. destruct (UnmarshalText_no_error r text Hok) as [Hl Hv].
    split; [exact Hl|].
    apply has_invalid_char_false in Hv.
    rewrite Forall_forall in Hb, Hv. apply Forall_forall. intros c Hc.
    destruct (decide (c ∈ encoding)) as [Hin|Hout]; [exact Hin|].
    exfalso. apply (Hv c Hc). apply dec_maxByte_iff; [apply Hb, Hc | exact Hout].
  - intros [Hl Ha].
    assert (Hv : has_invalid_char text = false).
    { apply has_invalid_char_false. eapply Forall_impl; [exact Ha|].
      intros c Hc. apply (encoding_symbol c Hc). }
    rewrite UnmarshalText_accepts by assumption. reflexivity.
Qed.

(** X1. The text of an identifier is always sixteen symbols of the
    alphabet: encoding cannot fail and never leaves the alphabet. *)
Theorem String_alphabet (id : ID) :
  valid_ID id ->
  length (String id) = encodedLen /\ Forall (fun c => c ∈ encoding) (String id).
Proof.
  intros Hid. pose proof Hid as [Hl _].
  split; [apply String_length; exact Hl|].
  rewrite (String_quintets id Hl). apply Forall_fmap.
  eapply Forall_impl; [apply quintets_quintet; exact Hid|].
  intros q Hq. apply enc_at_elem. exact Hq.
Qed.

Lemma String_alphabet_witness :
  valid_ID sample_id
  /\ length (String sample_id) = encodedLen
  /\ Forall (fun c => c ∈ encoding) (String sample_id).
Proof.
  split; [exact sample_id_valid | exact (String_alphabet sample_id sample_id_valid)].
Defined.

(** X2. Two different identifiers never have the same text. *)
Theorem String_inj (a b : ID) :
  valid_ID a -> valid_ID b -> String a = String b -> a = b.
Proof.
  intros Ha Hb He.
  assert (H : UnmarshalText nilID (String a) = UnmarshalText nilID (String b))
    by (rewrite He; reflexivity).
  rewrite !UnmarshalText_String in H by (assumption || reflexivity).
  injection H as H. exact H.
Qed.

Lemma String_inj_witness :
  valid_ID sample_id /\ valid_ID sample_id /\ String sample_id = String sample_id
  /\ sample_id = sample_id.
Proof.
  split; [exact sample_id_valid|]. split; [exact sample_id_valid|].
  split; [reflexivity|].
  exact (String_inj sample_id sample_id sample_id_valid sample_id_valid eq_refl).
Defined.

(** X3. [UnmarshalText] into any receiver: when it succeeds the receiver
    holds what [FromString] returns, whatever it held before; when it
    fails the receiver is left exactly as it was, and is not reset. *)
Theorem UnmarshalText_receiver (r : ID) (text : list Z) :
  length r = rawLen -> Forall is_byte text ->
  (UnmarshalText r text).2 = (FromString text).2
  /\ ((FromString text).2 = None -> (UnmarshalText r text).1 = (FromString text).1)
  /\ ((FromString text).2 <> None -> (UnmarshalText r text).1 = r).
Proof.
  intros Hr Hb. unfold FromString, UnmarshalText.
  destruct (negb (length text =? encodedLen)%nat) eqn:El;
    [cbn [fst snd]; repeat split; intros H; discriminate H|].
  destruct (has_invalid_char text) eqn:Ev;
    [cbn [fst snd]; repeat split; intros H; discriminate H|].
  apply negb_false_iff, Nat.eqb_eq in El.
  rewrite !decode_accepts by (assumption || reflexivity).
  cbn [negb fst snd]. repeat split. intros H. contradiction.
Qed.

Lemma UnmarshalText_receiver_witness :
  length sample_id = rawLen /\ Forall is_byte upper_text
  /\ UnmarshalText sample_id upper_text = (sample_id, Some ErrInvalidID).
Proof.
  assert (Hb : Forall is_byte upper_text) by (repeat constructor; unfold is_byte; lia).
  split; [reflexivity|]. split; [exact Hb|].
  destruct (UnmarshalText_receiver sample_id upper_text eq_refl Hb) as (He & _ & Hr).
  assert (Hf : (FromString upper_text).2 = Some ErrInvalidID) by (vm_compute; reflexivity).
  rewrite Hf in He, Hr.
  rewrite (surjective_pairing (UnmarshalText sample_id upper_text)), He, Hr;
    [reflexivity | discriminate].
Defined.

(** ** Buffers and byte slices *)

(** X4. [Encode] overwrites the first sixteen bytes of a buffer that has
    room for them with the text of the identifier and leaves the rest of
    the buffer as it was. *)
Theorem Encode_prefix (id : ID) (dst : list Z) :
  length id = rawLen -> (encodedLen <= length dst)%nat ->
  Encode id dst = String id ++ drop encodedLen dst.
Proof.
  intros Hi Hd. unfold encodedLen in Hd.
  list_of_length id Hi.
  do 16 (destruct dst as [|? dst]; [cbn [length] in Hd; lia|]).
  reflexivity.
Qed.

Lemma Encode_prefix_witness :
  length sample_id = rawLen /\ (encodedLen <= length (replicate 20 7))%nat
  /\ Encode sample_id (replicate 20 7) = sample_text ++ [7; 7; 7; 7].
Proof.
  assert (Hd : (encodedLen <= length (replicate 20 7))%nat)
    by (rewrite length_replicate; unfold encodedLen; lia).
  split; [reflexivity|]. split; [exact Hd|].
  rewrite (Encode_prefix sample_id (replicate 20 7) eq_refl Hd).
  vm_compute. reflexivity.
Defined.

(** X5. [FromBytes] returns a slice of exactly ten bytes unchanged and
    without error; for every other length it returns [nilID] with
    [ErrInvalidID]. *)
Theorem FromBytes_spec (b : list Z) :
  (length b = rawLen -> FromBytes b = (b, None))
  /\ (length b <> rawLen -> FromBytes b = (nilID, Some ErrInvalidID)).
Proof.
  unfold FromBytes. split; intros Hl.
  - rewrite Hl, Nat.eqb_refl. cbn [negb]. unfold copy.
    rewrite length_replicate, Hl, <- Hl, firstn_all, drop_replicate, Nat.sub_diag.
    cbn [replicate]. rewrite app_nil_r. reflexivity.
  - apply Nat.eqb_neq in Hl. rewrite Hl. reflexivity.
Qed.

Lemma FromBytes_spec_witness :
  length (Bytes sample_id) = rawLen /\ FromBytes (Bytes sample_id) = (sample_id, None)
  /\ length [1; 2] <> rawLen /\ FromBytes [1; 2] = (nilID, Some ErrInvalidID).
Proof.
  assert (H2 : length [1; 2] <> rawLen) by discriminate.
  split; [reflexivity|].
  split; [exact (proj1 (FromBytes_spec (Bytes sample_id)) eq_refl)|].
  split; [exact H2 | exact (proj2 (FromBytes_spec [1; 2]) H2)].
Defined.

(** ** JSON *)

Lemma MarshalJSON_text (id : ID) :
  length id = rawLen -> id <> nilID ->
  MarshalJSON id = (quote :: String id ++ [quote], None).
Proof.
  intros Hl Hn. unfold MarshalJSON.
  rewrite bool_decide_eq_false_2 by exact Hn.
  list_of_length id Hl. reflexivity.
Qed.

Lemma quoted_inner (s : list Z) :
  length s = encodedLen ->
  let b := quote :: s ++ [quote] in
  take (length b - 1 - 1) (drop 1 b) = s /\ b <> bytes_of_string "null"
  /\ (length b <? 2)%nat = false.
Proof.
  intros Hl. list_of_length s Hl. repeat split. discriminate.
Qed.

(** X6. [MarshalJSON] never fails: it gives the four bytes [null] for
    [nilID] and otherwise the sixteen-symbol text between two double
    quotes. *)
Theorem MarshalJSON_spec (id : ID) :
  length id = rawLen ->
  MarshalJSON id =
    (if IsNil id then bytes_of_string "null" else [quote] ++ String id ++ [quote],
     None).
Proof.
  intros Hl. unfold IsNil. destruct (decide (id = nilID)) as [E|E].
  - subst id. reflexivity.
  - rewrite (MarshalJSON_text id Hl E), bool_decide_eq_false_2 by exact E.
    reflexivity.
Qed.

Lemma MarshalJSON_spec_witness :
  length sample_id = rawLen
  /\ MarshalJSON sample_id = ([quote] ++ sample_text ++ [quote], None).
Proof.
  split; [reflexivity|].
  rewrite (MarshalJSON_spec sample_id eq_refl). vm_compute. reflexivity.
Defined.

(** X7. JSON round trip: unmarshalling what [MarshalJSON] wrote for an
    identifier, into any receiver, gives that identifier back without
    error; [nilID] travels as [null]. *)
Theorem UnmarshalJSON_MarshalJSON (r id : ID) :
  length r = rawLen -> valid_ID id ->
  UnmarshalJSON r (MarshalJSON id).1 = (id, None).
Proof.
  intros Hr Hid. pose proof Hid as [Hl _].
  destruct (decide (id = nilID)) as [E|E].
  - subst id. reflexivity.
  - rewrite (MarshalJSON_text id Hl E). cbn [fst].
    destruct (quoted_inner (String id) (String_length id Hl)) as (Hin & Hne & Hlen).
    unfold UnmarshalJSON.
    rewrite bool_decide_eq_false_2 by exact Hne.
    rewrite Hlen, Hin. apply UnmarshalText_String; assumption.
Qed.

Lemma UnmarshalJSON_MarshalJSON_witness :
  length nilID = rawLen /\ valid_ID sample_id
  /\ UnmarshalJSON nilID (MarshalJSON sample_id).1 = (sample_id, None).
Proof.
  split; [reflexivity|]. split; [exact sample_id_valid|].
  exact (UnmarshalJSON_MarshalJSON nilID sample_id eq_refl sample_id_valid).
Defined.

(** X8. What [UnmarshalJSON] accepts: the four bytes [null], or eighteen
    bytes whose inner sixteen are symbols of the alphabet.  The first
    and the last byte are dropped unread, so they need not be quotes. *)
Theorem UnmarshalJSON_ok_iff (r : ID) (b : list Z) :
  length r = rawLen -> Forall is_byte b ->
  (UnmarshalJSON r b).2 = None
  <-> b = bytes_of_string "null"
      \/ (length b = 18%nat /\ Forall (fun c => c ∈ encoding) (take 16 (drop 1 b))).
Proof.
  intros Hr Hb. unfold UnmarshalJSON.
  destruct (decide (b = bytes_of_string "null")) as [E|E].
  - rewrite bool_decide_eq_true_2 by exact E. split; [left; exact E | reflexivity].
  - rewrite bool_decide_eq_false_2 by exact E.
    destruct (Nat.ltb_spec (length b) 2) as [Hlt|Hge]; cbn [snd].
    + split; [discriminate|]. intros [H|[H _]]; [contradiction | lia].
    + rewrite UnmarshalText_ok_iff;
        [ | exact Hr | apply Forall_take, Forall_drop; exact Hb ].
      rewrite length_take, length_drop. unfold encodedLen. split.
      * intros [Hl Ha]. right.
        assert (H18 : length b = 18%nat) by lia.
        rewrite H18 in Ha. split; [exact H18 | exact Ha].
      * intros [H|[H18 Ha]]; [contradiction|].
        rewrite H18. split; [reflexivity | exact Ha].
Qed.

(** Eighteen bytes between two letters instead of quotes. *)
Lemma UnmarshalJSON_ok_iff_witness :
  let b := bytes_of_string "x06bqer9xnr09hyq5y" in
  length nilID = rawLen /\ Forall is_byte b
  /\ UnmarshalJSON nilID b = (sample_id, None).
Proof.
  intros b.
  assert (Hb : Forall is_byte b) by (repeat constructor; unfold is_byte; lia).
  split; [reflexivity|]. split; [exact Hb|].
  assert (Hok : (UnmarshalJSON nilID b).2 = None).
  { apply (UnmarshalJSON_ok_iff nilID b eq_refl Hb). right.
    split; [reflexivity|].
    apply Forall_forall. intros c Hc.
    assert (H : forallb (fun c => bool_decide (c ∈ encoding)) (take 16 (drop 1 b)) = true)
      by (vm_compute; reflexivity).
    rewrite forallb_forall in H. apply list_elem_of_In, H in Hc.
    apply bool_decide_eq_true in Hc. exact Hc. }
  rewrite (surjective_pairing (UnmarshalJSON nilID b)), Hok.
  vm_compute. reflexivity.
Defined.

(** ** SQL *)

(** X9. SQL round trip: scanning, into any receiver, the value that
    [Value] gives for an identifier returns that identifier without
    error; [nilID] travels as [nil]. *)
Theorem Scan_Value (r id : ID) :
  length r = rawLen -> valid_ID id ->
  (Value id).2 = None /\ Scan r (Value id).1 = (id, None).
Proof.
  intros Hr Hid. unfold Value, IsNil.
  destruct (decide (id = nilID)) as [E|E].
  - rewrite bool_decide_eq_true_2 by exact E. subst id. split; reflexivity.
  - rewrite bool_decide_eq_false_2 by exact E. cbn [fst snd MarshalText Scan].
    split; [reflexivity|].
    change (encode (replicate encodedLen 0) id) with (String id).
    rewrite UnmarshalText_String by assumption. reflexivity.
Qed.

Lemma Scan_Value_witness :
  length sample_id' = rawLen /\ valid_ID sample_id
  /\ (Value sample_id).2 = None /\ Scan sample_id' (Value sample_id).1 = (sample_id, None).
Proof.
  split; [reflexivity|]. split; [exact sample_id_valid|].
  exact (Scan_Value sample_id' sample_id eq_refl sample_id_valid).
Defined.

(** ** Accessors *)

(** Or-ing a value below [2^m] into a multiple of [2^m] adds it. *)
Lemma lor_high_low (H L m : Z) :
  0 <= m -> 0 <= L < 2 ^ m -> H mod 2 ^ m = 0 -> Z.lor H L = H + L.
Proof.
  intros Hm HL Hmod.
  assert (Hland : Z.land H L = 0).
  { apply Z.bits_inj'. intros n Hn. rewrite Z.land_spec, Z.bits_0.
    destruct (Z.lt_ge_cases n m) as [Hlt|Hge].
    - assert (HH : H = H / 2 ^ m * 2 ^ m).
      { pose proof (Z.div_mod H (2 ^ m)) as Hd.
        assert (2 ^ m <> 0) by (pose proof (Z.pow_pos_nonneg 2 m); lia).
        lia. }
      rewrite HH, Z.mul_pow2_bits_low by exact Hlt. reflexivity.
    - destruct (Z.eq_dec L 0) as [->|HL0];
        [rewrite Z.bits_0; apply andb_false_r|].
      rewrite (Z.bits_above_log2 L n), andb_false_r; [reflexivity | lia |].
      assert (Z.log2 L < m) by (apply Z.log2_lt_pow2; lia). lia. }
  pose proof (Z.add_lor_land H L). lia.
Qed.

Lemma Timestamp_cons (a0 a1 a2 a3 a4 a5 a6 a7 a8 a9 : Z) :
  Timestamp [a0; a1; a2; a3; a4; a5; a6; a7; a8; a9]
  = wrap64
      (Z.lor (Z.lor (Z.lor (Z.lor (Z.lor
         (u64 (Z.shiftl a0 40)) (u64 (Z.shiftl a1 32))) (u64 (Z.shiftl a2 24)))
         (u64 (Z.shiftl a3 16))) (u64 (Z.shiftl a4 8))) a5).
Proof. reflexivity. Qed.

Lemma Sequence_cons (a0 a1 a2 a3 a4 a5 a6 a7 a8 a9 : Z) :
  Sequence [a0; a1; a2; a3; a4; a5; a6; a7; a8; a9]
  = wrap32 (Z.lor (u32 (Z.shiftl a6 8)) a7).
Proof. reflexivity. Qed.

Lemma Random_cons (a0 a1 a2 a3 a4 a5 a6 a7 a8 a9 : Z) :
  Random [a0; a1; a2; a3; a4; a5; a6; a7; a8; a9]
  = wrap32 (Z.lor (u32 (Z.shiftl a8 8)) a9).
Proof. reflexivity. Qed.

Lemma be16 (a b : Z) :
  is_byte a -> is_byte b -> wrap32 (Z.lor (u32 (Z.shiftl a 8)) b) = a * 256 + b.
Proof.
  unfold is_byte. intros Ha Hb.
  rewrite Z.shiftl_mul_pow2 by lia. unfold u32.
  rewrite (Z.mod_small (a * 2 ^ 8)) by lia.
  rewrite (lor_high_low (a * 2 ^ 8) b 8) by (try apply Z.mod_mul; lia).
  unfold wrap32. rewrite Z.mod_small; lia.
Qed.

Lemma be48 (a0 a1 a2 a3 a4 a5 : Z) :
  is_byte a0 -> is_byte a1 -> is_byte a2 -> is_byte a3 -> is_byte a4 -> is_byte a5 ->
  wrap64
    (Z.lor (Z.lor (Z.lor (Z.lor (Z.lor
       (u64 (Z.shiftl a0 40)) (u64 (Z.shiftl a1 32))) (u64 (Z.shiftl a2 24)))
       (u64 (Z.shiftl a3 16))) (u64 (Z.shiftl a4 8))) a5)
  = a0 * 2 ^ 40 + a1 * 2 ^ 32 + a2 * 2 ^ 24 + a3 * 2 ^ 16 + a4 * 2 ^ 8 + a5.
Proof.
  unfold is_byte. intros H0 H1 H2 H3 H4 H5.
  rewrite !Z.shiftl_mul_pow2 by lia. unfold u64.
  rewrite !Z.mod_small by lia.
  rewrite (lor_high_low (a0 * 2 ^ 40) (a1 * 2 ^ 32) 40)
    by (try apply Z.mod_mul; lia).
  rewrite (lor_high_low _ (a2 * 2 ^ 24) 32) by (try div_mod_lia; lia).
  rewrite (lor_high_low _ (a3 * 2 ^ 16) 24) by (try div_mod_lia; lia).
  rewrite (lor_high_low _ (a4 * 2 ^ 8) 16) by (try div_mod_lia; lia).
  rewrite (lor_high_low _ a5 8) by (try div_mod_lia; lia).
  unfold wrap64. rewrite Z.mod_small; lia.
Qed.

Lemma fields_value (id : ID) :
  valid_ID id ->
  (0 <= Timestamp id < 2 ^ 48 /\ 0 <= Sequence id < 2 ^ 16 /\ 0 <= Random id < 2 ^ 16)
  /\ value 256 (take 8 id) = Timestamp id * 2 ^ 16 + Sequence id
  /\ value 256 id = Timestamp id * 2 ^ 32 + Sequence id * 2 ^ 16 + Random id.
Proof.
  intros [Hl Hb]. list_of_length id Hl. split_Forall.
  rewrite Timestamp_cons, Sequence_cons, Random_cons.
  rewrite be48, !be16 by assumption.
  cbv [value foldl take]. unfold is_byte in *. repeat split; lia.
Qed.

(** X10. The three accessors split an identifier: the timestamp is
    below 2^48, sequence and random value are below 2^16, and together
    they are the eighty bits read as one big-endian number. *)
Theorem accessors_value (id : ID) :
  valid_ID id ->
  0 <= Timestamp id < 2 ^ 48 /\ 0 <= Sequence id < 2 ^ 16 /\ 0 <= Random id < 2 ^ 16
  /\ value 256 id = Timestamp id * 2 ^ 32 + Sequence id * 2 ^ 16 + Random id.
Proof.
  intros Hid. destruct (fields_value id Hid) as ((Ht & Hs & Hr) & _ & Hv).
  repeat split; try apply Ht; try apply Hs; try apply Hr. exact Hv.
Qed.

Lemma accessors_value_witness :
  valid_ID sample_id
  /\ value 256 sample_id
     = Timestamp sample_id * 2 ^ 32 + Sequence sample_id * 2 ^ 16 + Random sample_id.
Proof.
  split; [exact sample_id_valid|].
  exact (proj2 (proj2 (proj2 (accessors_value sample_id sample_id_valid)))).
Defined.

(** ** [Compare] as an order *)

Lemma Compare_keys (a b : ID) :
  valid_ID a -> valid_ID b ->
  Compare a b = cmpZ (Timestamp a * 2 ^ 16 + Sequence a)
                     (Timestamp b * 2 ^ 16 + Sequence b).
Proof.
  intros Ha Hb.
  destruct (fields_value a Ha) as (_ & <- & _).
  destruct (fields_value b Hb) as (_ & <- & _).
  destruct Ha as [Hla Hba], Hb as [Hlb Hbb].
  apply (bytes_Compare_value 256);
    [lia | rewrite !length_take, Hla, Hlb; reflexivity
     | apply Forall_take; assumption ..].
Qed.

(** X11. [Compare] orders identifiers by timestamp and, for equal
    timestamps, by sequence; the random value plays no part. *)
Theorem Compare_fields (a b : ID) :
  valid_ID a -> valid_ID b ->
  Compare a b =
    match Timestamp a ?= Timestamp b with
    | Lt => -1
    | Gt => 1
    | Eq => cmpZ (Sequence a) (Sequence b)
    end.
Proof.
  intros Ha Hb. rewrite (Compare_keys a b Ha Hb). unfold cmpZ.
  destruct (fields_value a Ha) as ((_ & Hsa & _) & _).
  destruct (fields_value b Hb) as ((_ & Hsb & _) & _).
  rewrite (compare_shift (2 ^ 16)) by lia.
  destruct (Timestamp a ?= Timestamp b); reflexivity.
Qed.

Lemma Compare_fields_witness :
  valid_ID sample_id /\ valid_ID sample_id'
  /\ Timestamp sample_id = Timestamp sample_id'
  /\ Sequence sample_id = Sequence sample_id'
  /\ Random sample_id <> Random sample_id'
  /\ Compare sample_id sample_id' = 0.
Proof.
  split; [exact sample_id_valid|]. split; [exact sample_id'_valid|].
  split; [reflexivity|]. split; [reflexivity|].
  split; [vm_compute; discriminate|].
  rewrite (Compare_fields sample_id sample_id' sample_id_valid sample_id'_valid).
  reflexivity.
Defined.

Lemma bytes_Compare_range (a b : list Z) : -1 <= bytes_Compare a b <= 1.
Proof.
  revert b. induction a as [|x a IH]; intros [|y b]; cbn [bytes_Compare]; try lia.
  destruct (x ?= y); [apply IH | lia | lia].
Qed.

Lemma bytes_Compare_eq (a b : list Z) : bytes_Compare a b = 0 <-> a = b.
Proof.
  revert b. induction a as [|x a IH]; intros [|y b]; cbn [bytes_Compare];
    try (split; [lia | discriminate]); [tauto|].
  destruct (Z.compare_spec x y) as [E|L|G].
  - subst y. rewrite IH. split; [intros ->; reflexivity | intros H; injection H; tauto].
  - split; [lia | intros H; injection H as H _; lia].
  - split; [lia | intros H; injection H as H _; lia].
Qed.

Lemma bytes_Compare_trans (a b c : list Z) :
  (bytes_Compare a b <= 0 -> bytes_Compare b c <= 0 -> bytes_Compare a c <= 0)
  /\ (bytes_Compare a b < 0 -> bytes_Compare b c <= 0 -> bytes_Compare a c < 0)
  /\ (bytes_Compare a b <= 0 -> bytes_Compare b c < 0 -> bytes_Compare a c < 0).
Proof.
  revert b c. induction a as [|x a IH]; intros [|y b] [|z c];
    cbn [bytes_Compare]; try lia.
  specialize (IH b c).
  destruct (Z.compare_spec x y), (Z.compare_spec y z), (Z.compare_spec x z);
    try lia; exact IH.
Qed.

(** X12. [Compare] is a total preorder with results -1, 0 and +1:
    swapping the arguments negates the result, it is transitive, and it
    is 0 exactly when the first eight bytes agree. *)
Theorem Compare_preorder (a b c : ID) :
  -1 <= Compare a b <= 1
  /\ Compare b a = - Compare a b
  /\ (Compare a b <= 0 -> Compare b c <= 0 -> Compare a c <= 0)
  /\ (Compare a b = 0 <-> take 8 a = take 8 b).
Proof.
  unfold Compare. split; [apply bytes_Compare_range|].
  split; [apply bytes_Compare_antisym|].
  split; [apply bytes_Compare_trans | apply bytes_Compare_eq].
Qed.

Lemma Compare_preorder_witness :
  Compare nilID sample_id <= 0 /\ Compare sample_id sample_id' <= 0
  /\ Compare nilID sample_id' <= 0.
Proof.
  assert (H1 : Compare nilID sample_id <= 0) by (vm_compute; discriminate).
  assert (H2 : Compare sample_id sample_id' <= 0) by (vm_compute; discriminate).
  split; [exact H1|]. split; [exact H2|].
  exact (proj1 (proj2 (proj2 (Compare_preorder nilID sample_id sample_id'))) H1 H2).
Defined.

Lemma Compare_strict_weak_order (a b c : ID) :
  (Compare a a <? 0) = false
  /\ ((Compare a b <? 0) = true -> (Compare b a <? 0) = false)
  /\ ((Compare a b <? 0) = true -> (Compare b c <? 0) = true ->
      (Compare a c <? 0) = true)
  /\ ((Compare a b <? 0) = false -> (Compare b c <? 0) = false ->
      (Compare a c <? 0) = false).
Proof.
  unfold Compare.
  pose proof (bytes_Compare_antisym (take 8 a) (take 8 b)) as Hab.
  pose proof (bytes_Compare_antisym (take 8 b) (take 8 c)) as Hbc.
  pose proof (bytes_Compare_antisym (take 8 a) (take 8 c)) as Hac.
  pose proof (bytes_Compare_trans (take 8 a) (take 8 b) (take 8 c)) as (_ & Ht & _).
  pose proof (bytes_Compare_trans (take 8 c) (take 8 b) (take 8 a)) as (Ht' & _).
  rewrite bytes_Compare_refl.
  rewrite !Z.ltb_lt, !Z.ltb_ge. split; [lia|]. split; [lia|]. split; lia.
Qed.

(** X13. [Less] is a strict weak order on the positions of a slice, as
    [sort.Sort] needs: irreflexive, asymmetric, transitive, and with a
    transitive "neither is less". *)
Theorem Less_strict_weak_order (s : sorter) (i j k : nat) :
  Less s i i = false
  /\ (Less s i j = true -> Less s j i = false)
  /\ (Less s i j = true -> Less s j k = true -> Less s i k = true)
  /\ (Less s i j = false -> Less s j k = false -> Less s i k = false).
Proof. unfold Less. apply Compare_strict_weak_order. Qed.

Lemma Less_strict_weak_order_witness :
  let s := [nilID; sample_id; sample_id'] in
  Less s 0 1 = true /\ Less s 1 0 = false
  /\ Less s 1 2 = false /\ Less s 2 1 = false.
Proof.
  intros s.
  assert (H01 : Less s 0 1 = true) by (vm_compute; reflexivity).
  split; [exact H01|].
  split; [exact (proj1 (proj2 (Less_strict_weak_order s 0 1 0)) H01)|].
  split; vm_compute; reflexivity.
Defined.

(** ** [Swap] *)

Lemma delete_insert_same {A} (l : list A) (k : nat) (x : A) :
  delete k (<[k := x]> l) = delete k l.
Proof.
  revert k. induction l as [|y l IH]; intros [|k]; try reflexivity.
  cbn. f_equal. apply IH.
Qed.

Lemma insert_swap_Permutation {A} `{!Inhabited A} (s : list A) (i j : nat) :
  (i < length s)%nat -> (j < length s)%nat ->
  <[j := s !!! i]> (<[i := s !!! j]> s) ≡ₚ s.
Proof.
  intros Hi Hj.
  pose proof (list_lookup_lookup_total_lt s i Hi) as Hsi.
  pose proof (list_lookup_lookup_total_lt s j Hj) as Hsj.
  set (si := s !!! i) in *. set (sj := s !!! j) in *.
  destruct (decide (i = j)) as [->|Hne].
  - rewrite list_insert_insert_eq, list_insert_id by exact Hsi. reflexivity.
  - set (s' := <[i := sj]> s).
    assert (Hs'j : s' !! j = Some sj)
      by (unfold s'; rewrite list_lookup_insert_ne by exact Hne; exact Hsj).
    assert (Hs'i : s' !! i = Some sj)
      by (unfold s'; apply list_lookup_insert_eq; exact Hi).
    assert (Hj' : (j < length s')%nat) by (unfold s'; rewrite length_insert; exact Hj).
    pose proof (delete_Permutation s i si Hsi) as P1.
    pose proof (delete_Permutation s' i sj Hs'i) as P2.
    unfold s' in P2 at 2. rewrite delete_insert_same in P2.
    pose proof (delete_Permutation s' j sj Hs'j) as P3.
    pose proof (delete_Permutation (<[j := si]> s') j si
                  (list_lookup_insert_eq s' j si Hj')) as P4.
    rewrite delete_insert_same in P4.
    rewrite P4, P1. constructor.
    apply (Permutation_cons_inv (a := sj)).
    rewrite <- P3, P2. reflexivity.
Qed.

Lemma Swap_Permutation (s : sorter) (i j : nat) :
  (i < length s)%nat -> (j < length s)%nat -> Swap s i j ≡ₚ s.
Proof. intros Hi Hj. unfold Swap. apply insert_swap_Permutation; assumption. Qed.

(** X14. Whatever calls of [Swap] a sort makes on positions of the
    slice, the slice stays a rearrangement of what it was and keeps its
    length: no identifier is lost or duplicated. *)
Theorem Swaps_Permutation (ijs : list (nat * nat)) (s : sorter) :
  Forall (fun ij => (ij.1 < Len s)%nat /\ (ij.2 < Len s)%nat) ijs ->
  Swaps s ijs ≡ₚ s /\ Len (Swaps s ijs) = Len s.
Proof.
  unfold Swaps, Len. revert s.
  induction ijs as [|[i j] ijs IH]; intros s Hij; [split; reflexivity|].
  apply Forall_cons in Hij as [[Hi Hj] Hij]. cbn [fst snd] in Hi, Hj.
  cbn [foldl fst snd].
  pose proof (Swap_Permutation s i j Hi Hj) as HP.
  assert (Hlen : length (Swap s i j) = length s) by (rewrite HP; reflexivity).
  destruct (IH (Swap s i j)) as [IH1 IH2];
    [rewrite Hlen; exact Hij|].
  split; [rewrite IH1; exact HP | rewrite IH2; exact Hlen].
Qed.

Lemma Swaps_Permutation_witness :
  let s := [sample_id; nilID; sample_id'] in
  let ijs := [(0, 2); (1, 2); (0, 0)]%nat in
  Forall (fun ij => (ij.1 < Len s)%nat /\ (ij.2 < Len s)%nat) ijs
  /\ Swaps s ijs = [sample_id'; sample_id; nilID]
  /\ Swaps s ijs ≡ₚ s.
Proof.
  intros s ijs.
  assert (H : Forall (fun ij => (ij.1 < Len s)%nat /\ (ij.2 < Len s)%nat) ijs)
    by (repeat constructor).
  split; [exact H|]. split; [reflexivity|].
  exact (proj1 (Swaps_Permutation ijs s H)).
Defined.

(** ** The generator, without the wrap-around *)

(** [getTS] in plain integer arithmetic: the clock's own pair when its
    tick is past [lastTime], the tick after [lastTime] otherwise. *)
Lemma getTS_plain (nano lastTime : Z) :
  is_int64 nano -> is_int64 lastTime -> lastTime < 2 ^ 63 - 1 ->
  let cm := nano ÷ 1000000 in
  let cs := Z.rem nano 1000000 / 2 ^ 8 in
  (0 <= nano -> 0 <= cm < 2 ^ 44 /\ 0 <= cs <= 3906)
  /\ (nano <= 0 -> cm <= 0 /\ cs <= 0)
  /\ getTS nano lastTime =
       if cm * 4096 + cs <=? lastTime
       then (((lastTime + 1) / 4096, (lastTime + 1) mod 4096), lastTime + 1)
       else ((cm, cs), cm * 4096 + cs).
Proof.
  intros Hn Hl Hmax cm cs. unfold is_int64 in Hn, Hl.
  assert (Hrem : nano = 1000000 * cm + Z.rem nano 1000000)
    by (apply Z.quot_rem').
  assert (Hr : - 1000000 < Z.rem nano 1000000 < 1000000).
  { pose proof (Z.rem_bound_abs nano 1000000). lia. }
  assert (Hpos : 0 <= nano -> 0 <= Z.rem nano 1000000)
    by (intros; apply Z.rem_nonneg; lia).
  assert (Hneg : nano <= 0 -> Z.rem nano 1000000 <= 0)
    by (intros; apply Z.rem_nonpos; lia).
  assert (Hcs : - 3907 <= cs <= 3906) by (unfold cs; div_mod_lia).
  split; [intros H0; specialize (Hpos H0); unfold cs; split; [lia | div_mod_lia]|].
  split; [intros H0; specialize (Hneg H0); unfold cs; split; [lia | div_mod_lia]|].
  unfold getTS, nanoPerMilli. fold cm.
  rewrite (wrap64_small (cm * 1000000)) by (unfold is_int64; lia).
  replace (nano - cm * 1000000) with (Z.rem nano 1000000) by lia.
  rewrite (wrap64_small (Z.rem nano 1000000)) by (unfold is_int64; lia).
  rewrite Z.shiftr_div_pow2, Z.shiftl_mul_pow2 by lia. fold cs.
  rewrite (wrap64_small (cm * 2 ^ 12)) by (unfold is_int64; lia).
  rewrite (wrap64_small (cm * 2 ^ 12 + cs)) by (unfold is_int64; lia).
  change (2 ^ 12) with 4096.
  destruct (cm * 4096 + cs <=? lastTime); [|reflexivity].
  rewrite (wrap64_small (lastTime + 1)) by (unfold is_int64; lia).
  change 0xfff with (Z.ones 12).
  rewrite Z.land_ones, Z.shiftr_div_pow2 by lia. reflexivity.
Qed.

Lemma getTS_range (nano lastTime : Z) :
  is_int64 nano -> 0 <= lastTime < 2 ^ 63 - 1 ->
  let r := getTS nano lastTime in
  0 <= r.1.2 < 4096 /\ 0 <= r.1.1 /\ nano ÷ 1000000 <= r.1.1
  /\ tick r.1 = r.2 /\ lastTime < r.2 <= Z.max (lastTime + 1) (2 ^ 56).
Proof.
  intros Hn Hl.
  destruct (getTS_plain nano lastTime Hn) as (Hpos & Hneg & Heq);
    [unfold is_int64; lia | lia |].
  cbv zeta in *. rewrite Heq. unfold tick.
  destruct (Z.leb_spec (nano ÷ 1000000 * 4096 + Z.rem nano 1000000 / 2 ^ 8) lastTime)
    as [Hle|Hgt]; cbn [fst snd].
  - destruct (Z.le_gt_cases 0 nano) as [H0|H0].
    + specialize (Hpos H0). repeat split; try div_mod_lia.
    + assert (H0' : nano <= 0) by lia. specialize (Hneg H0').
      repeat split; try div_mod_lia.
  - destruct (Z.le_gt_cases 0 nano) as [H0|H0].
    + specialize (Hpos H0). repeat split; lia.
    + assert (H0' : nano <= 0) by lia. specialize (Hneg H0'). lia.
Qed.

(** X15. One call of [getTS] with a stored value that is not negative:
    the sequence is within 0..4095, the millisecond is not negative and
    never behind the clock's; a clock tick past [lastTime] is returned
    as it is, and otherwise exactly the tick after [lastTime]. *)
Theorem getTS_clock_or_next (nano lastTime : Z) :
  is_int64 nano -> 0 <= lastTime < 2 ^ 63 - 1 ->
  let clock := (nano ÷ nanoPerMilli, Z.rem nano nanoPerMilli / 256) in
  let r := getTS nano lastTime in
  0 <= r.1.2 < 4096 /\ 0 <= r.1.1 /\ nano ÷ nanoPerMilli <= r.1.1
  /\ (lastTime < tick clock -> r = (clock, tick clock))
  /\ (tick clock <= lastTime -> r.2 = lastTime + 1).
Proof.
  intros Hn Hl clock r.
  destruct (getTS_range nano lastTime Hn Hl) as (Hs & Hm & Hc & _).
  fold r in Hs, Hm, Hc.
  split; [exact Hs|]. split; [exact Hm|]. split; [exact Hc|].
  destruct (getTS_plain nano lastTime Hn) as (_ & _ & Heq);
    [unfold is_int64; lia | lia |].
  cbv zeta in Heq. unfold r, clock, tick, nanoPerMilli. cbn [fst snd].
  rewrite Heq. change (2 ^ 8) with 256.
  destruct (Z.leb_spec (nano ÷ 1000000 * 4096 + Z.rem nano 1000000 / 256) lastTime)
    as [Hle|Hgt]; split; intros H; try lia; reflexivity.
Qed.

Lemma getTS_clock_or_next_witness :
  is_int64 1741456227757958400 /\ 0 <= 5 < 2 ^ 63 - 1
  /\ getTS 1741456227757958400 5
     = ((1741456227757, 3743), 1741456227757 * 4096 + 3743).
Proof.
  assert (Hn : is_int64 1741456227757958400) by (unfold is_int64; lia).
  assert (Hl : 0 <= 5 < 2 ^ 63 - 1) by lia.
  split; [exact Hn|]. split; [exact Hl|].
  apply (getTS_clock_or_next 1741456227757958400 5 Hn Hl).
  vm_compute. reflexivity.
Defined.

(** ** New identifiers *)

Lemma New_cons (nano lastTime r8 r9 : Z) :
  let r := getTS nano lastTime in
  New nano lastTime r8 r9
  = ([u8 (Z.shiftr r.1.1 40); u8 (Z.shiftr r.1.1 32); u8 (Z.shiftr r.1.1 24);
      u8 (Z.shiftr r.1.1 16); u8 (Z.shiftr r.1.1 8); u8 r.1.1;
      u8 (Z.shiftr r.1.2 8); u8 r.1.2; r8; r9], r.2).
Proof. reflexivity. Qed.

Lemma u8_byte (x : Z) : is_byte (u8 x).
Proof. unfold is_byte, u8. apply Z.mod_pos_bound. lia. Qed.

Lemma New_fields (nano lastTime r8 r9 : Z) :
  is_int64 nano -> 0 <= lastTime < 2 ^ 60 - 1 -> is_byte r8 -> is_byte r9 ->
  let g := getTS nano lastTime in
  let r := New nano lastTime r8 r9 in
  valid_ID r.1
  /\ Timestamp r.1 = g.1.1 /\ Sequence r.1 = g.1.2 /\ Random r.1 = r8 * 256 + r9
  /\ r.2 = g.2
  /\ 0 <= Sequence r.1 < 4096
  /\ Timestamp r.1 * 4096 + Sequence r.1 = r.2
  /\ lastTime < r.2 <= Z.max (lastTime + 1) (2 ^ 56).
Proof.
  intros Hn Hl H8 H9 g r.
  destruct (getTS_range nano lastTime Hn) as (Hs & Hm & _ & Ht & Hr); [lia|].
  fold g in Hs, Hm, Ht, Hr. unfold tick in Ht.
  assert (Hm48 : g.1.1 < 2 ^ 48) by lia.
  unfold r. rewrite New_cons. fold g. cbn [fst snd].
  rewrite Timestamp_cons, Sequence_cons, Random_cons.
  rewrite be48, !be16 by (assumption || apply u8_byte).
  rewrite !Z.shiftr_div_pow2 by lia. unfold u8.
  assert (HT : g.1.1 / 2 ^ 40 mod 256 * 2 ^ 40 + g.1.1 / 2 ^ 32 mod 256 * 2 ^ 32
               + g.1.1 / 2 ^ 24 mod 256 * 2 ^ 24 + g.1.1 / 2 ^ 16 mod 256 * 2 ^ 16
               + g.1.1 / 2 ^ 8 mod 256 * 2 ^ 8 + g.1.1 mod 256 = g.1.1)
    by div_mod_lia.
  assert (HS : g.1.2 / 2 ^ 8 mod 256 * 256 + g.1.2 mod 256 = g.1.2) by div_mod_lia.
  rewrite HT, HS.
  split; [split; [reflexivity|]|repeat split; lia].
  repeat (apply Forall_cons; split;
          [first [assumption | unfold is_byte; apply Z.mod_pos_bound; lia]|]).
  apply Forall_nil. exact I.
Qed.

(** X16. The accessors read back what [New] packed: the pair [getTS]
    returned and the two random bytes; timestamp and sequence of the new
    identifier combine to the value stored in [lastTime]. *)
Theorem New_accessors (nano lastTime r8 r9 : Z) :
  is_int64 nano -> 0 <= lastTime < 2 ^ 60 - 1 -> is_byte r8 -> is_byte r9 ->
  let g := getTS nano lastTime in
  let r := New nano lastTime r8 r9 in
  valid_ID r.1
  /\ (Timestamp r.1, Sequence r.1) = g.1 /\ Random r.1 = r8 * 256 + r9
  /\ r.2 = g.2 /\ Timestamp r.1 * 4096 + Sequence r.1 = r.2.
Proof.
  intros Hn Hl H8 H9 g r.
  destruct (New_fields nano lastTime r8 r9 Hn Hl H8 H9)
    as (Hv & Ht & Hs & Hr & H2 & _ & Hk & _).
  fold g r in Hv, Ht, Hs, Hr, H2, Hk.
  split; [exact Hv|]. split; [|split; [exact Hr | split; [exact H2 | exact Hk]]].
  rewrite Ht, Hs. destruct g.1; reflexivity.
Qed.

Lemma New_accessors_witness :
  let r := New 1741456227758038912 0 0x7a 0xe5 in
  is_int64 1741456227758038912 /\ 0 <= 0 < 2 ^ 60 - 1 /\ is_byte 0x7a /\ is_byte 0xe5
  /\ r.1 = sample_id
  /\ (Timestamp r.1, Sequence r.1) = (1741456227758, 152).
Proof.
  intros r.
  assert (Hn : is_int64 1741456227758038912) by (unfold is_int64; lia).
  assert (Hl : 0 <= 0 < 2 ^ 60 - 1) by lia.
  assert (H8 : is_byte 0x7a) by (unfold is_byte; lia).
  assert (H9 : is_byte 0xe5) by (unfold is_byte; lia).
  split; [exact Hn|]. split; [exact Hl|]. split; [exact H8|]. split; [exact H9|].
  split; [vm_compute; reflexivity|].
  destruct (New_accessors 1741456227758038912 0 0x7a 0xe5 Hn Hl H8 H9)
    as (_ & Hg & _).
  fold r in Hg. rewrite Hg. vm_compute. reflexivity.
Defined.

(** X17. [New] never returns [nilID]. *)
Theorem New_not_nil (nano lastTime r8 r9 : Z) :
  is_int64 nano -> 0 <= lastTime < 2 ^ 60 - 1 -> is_byte r8 -> is_byte r9 ->
  IsNil (New nano lastTime r8 r9).1 = false.
Proof.
  intros Hn Hl H8 H9.
  destruct (New_fields nano lastTime r8 r9 Hn Hl H8 H9)
    as (_ & _ & _ & _ & _ & _ & Hk & Hlt).
  cbv zeta in Hk, Hlt. unfold IsNil. apply bool_decide_eq_false. intros E.
  rewrite E in Hk.
  change (Timestamp nilID) with 0 in Hk. change (Sequence nilID) with 0 in Hk.
  lia.
Qed.

Lemma New_not_nil_witness :
  is_int64 0 /\ 0 <= 0 < 2 ^ 60 - 1 /\ is_byte 0 /\ is_byte 0
  /\ IsNil (New 0 0 0 0).1 = false.
Proof.
  assert (Hn : is_int64 0) by (unfold is_int64; lia).
  assert (Hl : 0 <= 0 < 2 ^ 60 - 1) by lia.
  assert (Hb : is_byte 0) by (unfold is_byte; lia).
  split; [exact Hn|]. split; [exact Hl|]. split; [exact Hb|]. split; [exact Hb|].
  exact (New_not_nil 0 0 0 0 Hn Hl Hb Hb).
Defined.

(** ** K-sortable: successive identifiers *)

Lemma StronglySorted_Forall_impl {A} (R R' : A -> A -> Prop) (P : A -> Prop)
    (l : list A) :
  (forall a b, P a -> P b -> R a b -> R' a b) ->
  Forall P l -> StronglySorted R l -> StronglySorted R' l.
Proof.
  intros HR HP Hs. induction Hs as [|a l Hs IH Hall]; [constructor|].
  apply Forall_cons in HP as [Ha HP].
  constructor; [apply IH; exact HP|].
  rewrite Forall_forall in Hall, HP. apply Forall_forall.
  intros b Hb. apply HR; [exact Ha | apply HP, Hb | apply Hall, Hb].
Qed.

(** One tick apart or more means [Compare] says "less", and so does the
    comparison of the texts. *)
Lemma ticks_Compare (a b : ID) :
  valid_ID a /\ 0 <= Sequence a < 4096 ->
  valid_ID b /\ 0 <= Sequence b < 4096 ->
  Timestamp a * 4096 + Sequence a < Timestamp b * 4096 + Sequence b ->
  Compare a b = -1 /\ bytes_Compare (String a) (String b) = -1.
Proof.
  intros [Ha Hsa] [Hb Hsb] Hlt.
  assert (Hc : Compare a b = -1).
  { rewrite (Compare_keys a b Ha Hb). unfold cmpZ.
    replace (Timestamp a * 2 ^ 16 + Sequence a ?= Timestamp b * 2 ^ 16 + Sequence b)
      with Lt; [reflexivity|].
    symmetry. apply Z.compare_lt_iff. lia. }
  split; [exact Hc|].
  rewrite (bytes_Compare_String a b Ha Hb).
  destruct Ha as [Hla _], Hb as [Hlb _].
  rewrite <- (take_drop 8 a), <- (take_drop 8 b).
  rewrite bytes_Compare_app by (rewrite !length_take, Hla, Hlb; reflexivity).
  fold (Compare a b). rewrite Hc. reflexivity.
Qed.

Lemma New_calls_ticks (inputs : list (Z * Z * Z)) :
  Forall (fun i => is_int64 i.1.1 /\ is_byte i.1.2 /\ is_byte i.2) inputs ->
  forall lastTime,
    0 <= lastTime ->
    Z.max lastTime (2 ^ 56) + Z.of_nat (length inputs) < 2 ^ 60 ->
    Forall (fun id => (valid_ID id /\ 0 <= Sequence id < 4096)
                      /\ lastTime < Timestamp id * 4096 + Sequence id)
           (New_calls lastTime inputs)
    /\ StronglySorted
         (fun a b => Timestamp a * 4096 + Sequence a < Timestamp b * 4096 + Sequence b)
         (New_calls lastTime inputs).
Proof.
  induction 1 as [|[[nano r8] r9] inputs (Hn & H8 & H9) Hin IH]; intros lastTime Hl Hlen.
  - split; constructor.
  - cbn [fst snd] in Hn, H8, H9. cbn [New_calls length] in *.
    destruct (New_fields nano lastTime r8 r9 Hn) as (Hv & _ & _ & _ & _ & Hs & Hk & Hlt);
      [lia | exact H8 | exact H9 |].
    cbv zeta in Hv, Hs, Hk, Hlt.
    set (r := New nano lastTime r8 r9) in *.
    destruct (IH r.2) as [IH1 IH2]; [lia | lia |].
    split.
    + constructor; [split; [split; assumption | lia]|].
      eapply Forall_impl; [exact IH1|]. cbv beta. intros id [Hid Hgt].
      split; [exact Hid | lia].
    + constructor; [exact IH2|].
      eapply Forall_impl; [exact IH1|]. cbv beta. intros id [_ Hgt]. lia.
Qed.

(** X18. K-sortable: in a process that starts with [lastTime = 0],
    whatever the clock reads and whatever the random bytes are, the
    identifiers that successive calls of [New] return are well formed
    and strictly increasing, both under [Compare] and in the
    lexicographic order of their texts.  The bound on the number of
    calls keeps the timestamp within its 48 bits. *)
Theorem New_calls_sorted (inputs : list (Z * Z * Z)) :
  Forall (fun i => is_int64 i.1.1 /\ is_byte i.1.2 /\ is_byte i.2) inputs ->
  Z.of_nat (length inputs) <= 2 ^ 59 ->
  let ids := New_calls 0 inputs in
  Forall valid_ID ids
  /\ StronglySorted (fun a b => Compare a b = -1) ids
  /\ StronglySorted (fun a b => bytes_Compare (String a) (String b) = -1) ids.
Proof.
  intros Hin Hlen ids.
  destruct (New_calls_ticks inputs Hin 0) as [HP Hs]; [lia | lia |].
  fold ids in HP, Hs.
  assert (HP' : Forall (fun id => valid_ID id /\ 0 <= Sequence id < 4096) ids).
  { eapply Forall_impl; [exact HP|]. cbv beta. intros id [H _]. exact H. }
  split; [eapply Forall_impl; [exact HP'|]; cbv beta; intros id [H _]; exact H|].
  split.
  - eapply StronglySorted_Forall_impl; [|exact HP'|exact Hs].
    intros a b Ha Hb Hlt. apply (ticks_Compare a b Ha Hb Hlt).
  - eapply StronglySorted_Forall_impl; [|exact HP'|exact Hs].
    intros a b Ha Hb Hlt. apply (ticks_Compare a b Ha Hb Hlt).
Qed.

(** A stalled clock and a clock stepping back, with equal random bytes. *)
Lemma New_calls_sorted_witness :
  let inputs := [(1741456227757958400, 7, 7); (1741456227757958400, 7, 7);
                 (1741456227757000000, 7, 7)] in
  Forall (fun i => is_int64 i.1.1 /\ is_byte i.1.2 /\ is_byte i.2) inputs
  /\ Z.of_nat (length inputs) <= 2 ^ 59
  /\ map String (New_calls 0 inputs)
     = [bytes_of_string "06bqer9xnm79y1r7"; bytes_of_string "06bqer9xnm7b01r7";
        bytes_of_string "06bqer9xnm7b21r7"]
  /\ StronglySorted (fun a b => Compare a b = -1) (New_calls 0 inputs).
Proof.
  intros inputs.
  assert (Hin : Forall (fun i => is_int64 i.1.1 /\ is_byte i.1.2 /\ is_byte i.2) inputs)
    by (repeat constructor; cbn; unfold is_int64, is_byte; lia).
  assert (Hlen : Z.of_nat (length inputs) <= 2 ^ 59) by (cbn; lia).
  split; [exact Hin|]. split; [exact Hlen|].
  split; [vm_compute; reflexivity|].
  exact (proj1 (proj2 (New_calls_sorted inputs Hin Hlen))).
Defined.

(** ** Failed unmarshalling *)

Lemma UnmarshalText_fail_unchanged (r : ID) (text : list Z) :
  length r = rawLen -> Forall is_byte text ->
  (UnmarshalText r text).2 <> None -> (UnmarshalText r text).1 = r.
Proof.
  intros Hr Hb. unfold UnmarshalText.
  destruct (negb (length text =? encodedLen)%nat) eqn:El; [reflexivity|].
  destruct (has_invalid_char text) eqn:Ev; [reflexivity|].
  apply negb_false_iff, Nat.eqb_eq in El.
  rewrite decode_accepts by assumption. cbn [negb snd]. contradiction.
Qed.

(** X19. A call of [UnmarshalJSON] that fails leaves the receiver
    exactly as it was. *)
Theorem UnmarshalJSON_fail_unchanged (r : ID) (b : list Z) :
  length r = rawLen -> Forall is_byte b ->
  (UnmarshalJSON r b).2 <> None -> (UnmarshalJSON r b).1 = r.
Proof.
  intros Hr Hb. unfold UnmarshalJSON.
  destruct (bool_decide (b = bytes_of_string "null")); [cbn [snd]; contradiction|].
  destruct (length b <? 2)%nat; [reflexivity|].
  apply UnmarshalText_fail_unchanged; [exact Hr|].
  apply Forall_take, Forall_drop. exact Hb.
Qed.

Lemma UnmarshalJSON_fail_unchanged_witness :
  let b := [quote] ++ upper_text ++ [quote] in
  length sample_id = rawLen /\ Forall is_byte b
  /\ (UnmarshalJSON sample_id b).2 <> None /\ (UnmarshalJSON sample_id b).1 = sample_id.
Proof.
  intros b.
  assert (Hb : Forall is_byte b) by (repeat constructor; unfold is_byte, quote; lia).
  assert (He : (UnmarshalJSON sample_id b).2 <> None) by (vm_compute; discriminate).
  split; [reflexivity|]. split; [exact Hb|]. split; [exact He|].
  exact (UnmarshalJSON_fail_unchanged sample_id b eq_refl Hb He).
Defined.

(** X20. [Scan]: a [nil] value resets the receiver to [nilID]; a call
    that fails, on a rejected text or on a value of an unsupported type,
    leaves the receiver exactly as it was; a string and a byte slice with
    the same bytes are treated alike. *)
Theorem Scan_receiver (r : ID) (value : any) :
  length r = rawLen ->
  match value with
  | any_string val | any_bytes val => Forall is_byte val
  | any_nil | any_other _ => True
  end ->
  Scan r any_nil = (nilID, None)
  /\ ((Scan r value).2 <> None -> (Scan r value).1 = r)
  /\ (forall val, Scan r (any_string val) = Scan r (any_bytes val))
  /\ (forall T, (Scan r (any_other T)).2 <> None).
Proof.
  intros Hr Hv. split; [reflexivity|].
  split; [|split; [reflexivity | intros T; discriminate]].
  destruct value as [val|val| |T]; cbn [Scan fst snd].
  - intros He. apply UnmarshalText_fail_unchanged; [exact Hr | exact Hv |].
    intros E. apply He. rewrite E. reflexivity.
  - intros He. apply UnmarshalText_fail_unchanged; [exact Hr | exact Hv |].
    intros E. apply He. rewrite E. reflexivity.
  - contradiction.
  - reflexivity.
Qed.

Lemma Scan_receiver_witness :
  length sample_id = rawLen /\ Forall is_byte short_text
  /\ Scan sample_id (any_string short_text) = (sample_id, Some (Err ErrInvalidID)).
Proof.
  assert (Hb : Forall is_byte short_text) by (repeat constructor; unfold is_byte; lia).
  split; [reflexivity|]. split; [exact Hb|].
  destruct (Scan_receiver sample_id (any_string short_text) eq_refl Hb) as (_ & Hk & _).
  assert (He : (Scan sample_id (any_string short_text)).2 = Some (Err ErrInvalidID))
    by (vm_compute; reflexivity).
  rewrite (surjective_pairing (Scan sample_id (any_string short_text))), He, Hk;
    [reflexivity | rewrite He; discriminate].
Defined.

(** ** The decoding table *)

Lemma fill_prefix {A} (x : A) (l : list A) (n : nat) :
  foldl (fun d i => <[i := x]> d) l (seq 0 n)
  = replicate (n `min` length l) x ++ drop n l.
Proof.
  induction n as [|n IH]; [rewrite drop_0; reflexivity|].
  rewrite seq_S, foldl_app, IH. cbn [foldl Nat.add].
  destruct (Nat.lt_ge_cases n (length l)) as [Hlt|Hge].
  - rewrite Nat.min_l, Nat.min_l by lia.
    rewrite insert_app_r_alt by (rewrite length_replicate; lia).
    rewrite length_replicate, Nat.sub_diag.
    destruct (drop n l) as [|y k] eqn:Ed.
    + apply (f_equal length) in Ed. rewrite length_drop in Ed. cbn in Ed. lia.
    + assert (Ek : drop (S n) l = k).
      { replace (S n) with (n + 1)%nat by lia. rewrite <- drop_drop, Ed. reflexivity. }
      rewrite Ek. cbn [insert list_insert]. rewrite replicate_S_end, <- app_assoc.
      reflexivity.
  - rewrite list_insert_ge by (rewrite length_app, length_replicate, length_drop; lia).
    rewrite !drop_ge by lia. rewrite !Nat.min_r by lia. reflexivity.
Qed.

(** X21. Whatever the table held before, [init] leaves the one table
    [dec]: every alphabet symbol is mapped to its index, and a byte is
    mapped to [maxByte] exactly when it is no symbol of the alphabet. *)
Theorem init_table (dec0 : list Z) :
  length dec0 = 256%nat ->
  init dec0 = dec
  /\ (forall v, is_quintet v -> dec_at (enc_at v) = v)
  /\ (forall c, is_byte c -> (dec_at c = maxByte <-> c ∉ encoding))
  /\ (forall c, is_byte c -> dec_at c <> maxByte ->
        is_quintet (dec_at c) /\ enc_at (dec_at c) = c).
Proof.
  intros Hl. split; [|split; [exact dec_enc | split; [exact dec_maxByte_iff | exact dec_valid]]].
  unfold init. rewrite fill_prefix, Hl, drop_ge, app_nil_r by lia.
  vm_compute. reflexivity.
Qed.

Lemma init_table_witness :
  length (replicate 256 7) = 256%nat /\ init (replicate 256 7) = dec.
Proof.
  split; [reflexivity|].
  exact (proj1 (init_table (replicate 256 7) eq_refl)).
Defined.
